(** * CLDR plural rules of babel ([babel/plural.py]): a shallow embedding

    The development follows the layout of [babel/plural.py]:
    the numeric primitives ([cldr_modulo], [in_range_list],
    [within_range_list]), the rule tokenizer and parser, the compilers,
    the [PluralRule] class and the converters [to_python] and [to_gettext].

    Python values are modelled as follows.
    - [int] is [Z]; [%] on ints is floored division remainder, which is
      [Z.modulo], and raises [ZeroDivisionError] on a zero divisor.
    - [decimal.Decimal] is a finite decimal: sign, coefficient, exponent
      (the fields of [Decimal.as_tuple()]).
    - a [float] is used by the code only through [str(num)]: it is
      represented by the finite decimal that [decimal.Decimal(str(num))]
      denotes.
    - [str] is [string]; rule text is read byte by byte.
    - raising an exception is the [Raise] case of [result]. *)

From Stdlib Require Import ZArith Lia Ascii String DecimalString DecimalN DecimalPos.
From stdpp Require Import base gmap sets list strings sorting.

Local Open Scope string_scope.
Local Open Scope list_scope.
Local Open Scope Z_scope.

(** ** Exceptions and results *)

Inductive exn : Type :=
| ValueError (msg : string)
| RuleError (msg : string)
| AttributeError (msg : string)
| SyntaxError (msg : string)
| NameError (msg : string)
| TokenizeError (offset : nat) (ch : ascii)
| ZeroDivisionError
| RecursionError.

Inductive result (A : Type) : Type :=
| Ok (a : A)
| Raise (e : exn).
Arguments Ok {A} a.
Arguments Raise {A} e.

#[global] Instance result_ret : MRet result := fun A a => Ok a.

#[global] Instance result_bind : MBind result := fun A B k r =>
  match r with
  | Ok a => k a
  | Raise e => Raise e
  end.


(** ** Numbers *)

(** [decimal.Decimal]: the value is [(-1)^sign * coef * 10^exp]. *)
Record Decimal : Type := mkDecimal {
  dec_sign : bool;
  dec_coef : N;
  dec_exp : Z
}.

Inductive pynum : Type :=
| PInt (z : Z)
| PFloat (repr : Decimal)
| PDec (d : Decimal).

Definition dec_signed (d : Decimal) : Z :=
  if dec_sign d then - Z.of_N (dec_coef d) else Z.of_N (dec_coef d).

(** Exact comparison of a Decimal with an int, as [Decimal.__le__] and
    friends do: both sides are scaled to a common exponent. *)
Definition dec_num (d : Decimal) : Z := dec_signed d * 10 ^ Z.max (dec_exp d) 0.
Definition dec_den (d : Decimal) : Z := 10 ^ Z.max (- dec_exp d) 0.

Definition dec_compare_int (d : Decimal) (k : Z) : comparison :=
  Z.compare (dec_num d) (k * dec_den d).

Definition dec_compare (d1 d2 : Decimal) : comparison :=
  Z.compare (dec_num d1 * dec_den d2) (dec_num d2 * dec_den d1).

Definition dec_eqb (d1 d2 : Decimal) : bool :=
  match dec_compare d1 d2 with Eq => true | _ => false end.

(** [Decimal.to_integral_value()] under the default context: round to the
    nearest integer, ties to even; the result has exponent 0. *)
Definition round_half_even (num den : Z) : Z :=
  let q := num / den in
  let r := num mod den in
  match Z.compare (2 * r) den with
  | Lt => q
  | Gt => q + 1
  | Eq => if Z.even q then q else q + 1
  end.

Definition to_integral_value (d : Decimal) : Decimal :=
  if 0 <=? dec_exp d then d
  else
    let m := round_half_even (Z.of_N (dec_coef d)) (dec_den d) in
    mkDecimal (dec_sign d) (Z.to_N m) 0.

(** ** [cldr_modulo] *)

(** Python's [a % b] on ints. *)
Definition py_mod (a b : Z) : result Z :=
  if b =? 0 then Raise ZeroDivisionError else Ok (a mod b).

(** [return ((a % b) + b) % b if a < 0 else a % b] *)
Definition cldr_modulo (a b : Z) : result Z :=
  if a <? 0 then r ← py_mod a b; py_mod (r + b) b
  else py_mod a b.

(** The formula of the specification, read with the mathematical
    non-negative remainder (the result lies in [0, |b|)). *)
Definition nonneg_mod (a b : Z) : Z := a mod Z.abs b.


(** ** [in_range_list] and [within_range_list] *)

(** An entry of a range list: a bare number, or a [(start, end)] pair. *)
Inductive range_item : Type :=
| Bare (k : Z)
| Pair (lo hi : Z).

(** [if isinstance(num, float): num = decimal.Decimal(str(num))] *)
Definition coerce_float (num : pynum) : pynum :=
  match num with
  | PFloat r => PDec r
  | _ => num
  end.

(** [num == k] *)
Definition num_eq_int (num : pynum) (k : Z) : bool :=
  match num with
  | PInt z => z =? k
  | PFloat d | PDec d =>
      match dec_compare_int d k with Eq => true | _ => false end
  end.

(** [start <= num <= end] *)
Definition num_between (num : pynum) (lo hi : Z) : bool :=
  match num with
  | PInt z => (lo <=? z) && (z <=? hi)
  | PFloat d | PDec d =>
      match dec_compare_int d lo, dec_compare_int d hi with
      | Lt, _ => false
      | _, Gt => false
      | _, _ => true
      end
  end.

(** [num.to_integral_value() == num]: ints have no such method. *)
Definition num_is_integral (num : pynum) : result bool :=
  match num with
  | PInt _ =>
      Raise (AttributeError "'int' object has no attribute 'to_integral_value'")
  | PFloat _ =>
      Raise (AttributeError "'float' object has no attribute 'to_integral_value'")
  | PDec d => Ok (dec_eqb (to_integral_value d) d)
  end.

(** The [for range_item in range_list] loop of [in_range_list]; [and]
    short-circuits, so the integrality test runs only inside a pair that
    contains [num]. *)
Fixpoint in_range_loop (num : pynum) (range_list : list range_item) : result bool :=
  match range_list with
  | [] => Ok false
  | Bare k :: rest =>
      if num_eq_int num k then Ok true else in_range_loop num rest
  | Pair lo hi :: rest =>
      if num_between num lo hi then
        b ← num_is_integral num;
        if (b : bool) then Ok true else in_range_loop num rest
      else in_range_loop num rest
  end.

Definition in_range_list (num : pynum) (range_list : list range_item) : result bool :=
  in_range_loop (coerce_float num) range_list.

Fixpoint within_range_loop (num : pynum) (range_list : list range_item) : bool :=
  match range_list with
  | [] => false
  | Bare k :: rest =>
      if num_eq_int num k then true else within_range_loop num rest
  | Pair lo hi :: rest =>
      if num_between num lo hi then true else within_range_loop num rest
  end.

Definition within_range_list (num : pynum) (range_list : list range_item) : result bool :=
  Ok (within_range_loop (coerce_float num) range_list).

(** What the specification says of the two tests. *)
Definition has_zero_fraction (num : pynum) : Prop :=
  match num with
  | PInt _ => True
  | PFloat d | PDec d => exists k : Z, dec_compare_int d k = Eq
  end.

Definition matches_bare (num : pynum) (rs : list range_item) : Prop :=
  exists k, Bare k ∈ rs /\ num_eq_int num k = true.

Definition matches_pair (num : pynum) (rs : list range_item) : Prop :=
  exists lo hi, Pair lo hi ∈ rs /\ num_between num lo hi = true.

Definition in_range_list_spec (num : pynum) (rs : list range_item) : Prop :=
  matches_bare num rs \/ (matches_pair num rs /\ has_zero_fraction num).

Definition within_range_list_spec (num : pynum) (rs : list range_item) : Prop :=
  matches_bare num rs \/ matches_pair num rs.

(** ** Strings *)

Definition LF : string := String "010"%char "".

(** [str(k)] for a non-negative int. *)
Definition str_N (k : N) : string := NilEmpty.string_of_uint (N.to_uint k).

Definition str_nat (k : nat) : string := str_N (N.of_nat k).

(** [int(text)] for a run of decimal digits ([None] on anything else;
    an empty run is not a number). *)
Definition int_of_digits (text : string) : option N :=
  match text with
  | "" => None
  | _ => N.of_uint <$> NilEmpty.uint_of_string text
  end.

(** [sep.join(parts)] *)
Fixpoint join (sep : string) (parts : list string) : string :=
  match parts with
  | [] => ""
  | [p] => p
  | p :: rest => p +:+ sep +:+ join sep rest
  end.

(** [tmpl % args] for the templates of this module: [%s] takes the next
    argument, [%%] is a literal percent sign. *)
Fixpoint percent_format (tmpl : string) (args : list string) : string :=
  match tmpl with
  | "" => ""
  | String "%" (String "s" rest) =>
      match args with
      | a :: args' => a +:+ percent_format rest args'
      | [] => percent_format rest []
      end
  | String "%" (String "%" rest) => String "%" (percent_format rest args)
  | String ch rest => String ch (percent_format rest args)
  end.

Fixpoint is_prefix (p s : string) : bool :=
  match p, s with
  | "", _ => true
  | String a p', String b s' => if Ascii.eqb a b then is_prefix p' s' else false
  | String _ _, "" => false
  end.

Fixpoint drop_chars (k : nat) (s : string) : string :=
  match k, s with
  | O, _ => s
  | S k', String _ s' => drop_chars k' s'
  | S _, "" => ""
  end.

Fixpoint take_chars (k : nat) (s : string) : string :=
  match k, s with
  | O, _ => ""
  | S k', String ch s' => String ch (take_chars k' s')
  | S _, "" => ""
  end.

(** Length of the longest prefix whose characters satisfy [p]. *)
Fixpoint span_len (p : ascii -> bool) (s : string) : nat :=
  match s with
  | String ch s' => if p ch then S (span_len p s') else O
  | "" => O
  end.

(** Lines of a text, split at line feeds. *)
Fixpoint split_lines_aux (cur : string) (s : string) : list string :=
  match s with
  | "" => [String.rev cur]
  | String ch s' =>
      if Ascii.eqb ch "010" then String.rev cur :: split_lines_aux "" s'
      else split_lines_aux (String ch cur) s'
  end.

Definition split_lines (s : string) : list string := split_lines_aux "" s.

(** [repr(s)] of a [str] ([{key!r}] in an f-string), for ASCII text: the
    text between single quotes, or between double quotes when it holds a
    single quote and no double quote; the quote in use and the backslash
    are escaped with a backslash, tab, line feed and carriage return are
    written [\t], [\n], [\r], and the other control characters [\xhh].
    A byte above 127 is copied, which is what [repr] does with the
    characters outside ASCII that are printable. *)
Definition double_quote : ascii := ascii_of_nat 34.

Definition contains (ch : ascii) (s : string) : bool :=
  existsb (Ascii.eqb ch) (list_ascii_of_string s).

Definition hex_digit (k : nat) : ascii :=
  nth k (list_ascii_of_string "0123456789abcdef") "0"%char.

Definition repr_quote (s : string) : ascii :=
  if contains "'" s && negb (contains double_quote s) then double_quote else "'"%char.

Definition repr_char (quote ch : ascii) : string :=
  let k := nat_of_ascii ch in
  if Ascii.eqb ch quote || Ascii.eqb ch "\" then String "\" (String ch "")
  else if (k =? 9)%nat then "\t"
  else if (k =? 10)%nat then "\n"
  else if (k =? 13)%nat then "\r"
  else if (k <? 32)%nat || (k =? 127)%nat then
    String "\" (String "x" (String (hex_digit (k / 16)) (String (hex_digit (k mod 16)) "")))
  else String ch "".

Definition py_repr (s : string) : string :=
  let quote := repr_quote s in
  String quote
    (String.concat "" (repr_char quote <$> list_ascii_of_string s) +:+ String quote "").


(** ** Tags *)

Definition _plural_tags : list string :=
  ["zero"; "one"; "two"; "few"; "many"; "other"].

Definition _fallback_tag : string := "other".

(** ** Tokenizer *)

(** Modelled from the spec: [tokenize_rule] is not among the sources; its
    rule table [_RULES] is.  A token has a type, a text and the offset of
    its first character. *)
Inductive toktype : Type := TWord | TValue | TSymbol | TEllipsis.

Record token : Type := mkToken {
  tok_type : toktype;
  tok_text : string;
  tok_pos : nat
}.

#[global] Instance toktype_eq_dec : EqDecision toktype.
Proof. solve_decision. Defined.

(** Character classes of the patterns, on ASCII: [\s], [\d] and the word
    characters that [\b] separates from the rest.  A byte above 127 is in
    none of them; apart from the ellipsis glyph no rule matches it. *)
Definition is_space (ch : ascii) : bool :=
  let k := nat_of_ascii ch in
  ((9 <=? k) && (k <=? 13) || (28 <=? k) && (k <=? 32))%nat.

Definition is_digit (ch : ascii) : bool :=
  let k := nat_of_ascii ch in ((48 <=? k) && (k <=? 57))%nat.

Definition is_word_char (ch : ascii) : bool :=
  let k := nat_of_ascii ch in
  ((48 <=? k) && (k <=? 57) || (65 <=? k) && (k <=? 90) ||
   (97 <=? k) && (k <=? 122) || (k =? 95))%nat.

(** [_VARS] *)
Definition _VARS : list string := ["n"; "i"; "v"; "w"; "f"; "t"; "c"; "e"].

(** The alternatives of the word pattern
    [\b(and|or|is|(?:with)?in|not|mod|[nivwftce])\b], in the order the
    regex engine tries them. *)
Definition word_alternatives : list string :=
  ["and"; "or"; "is"; "within"; "in"; "not"; "mod"] ++ _VARS.

(** [\b] holds between a word character and a non-word character or an
    end of the text. *)
Definition starts_with_word_char (s : string) : bool :=
  match s with
  | String ch _ => is_word_char ch
  | "" => false
  end.

Definition boundary_before (prev : option ascii) : bool :=
  match prev with
  | Some ch => negb (is_word_char ch)
  | None => true
  end.

Definition word_matches (s : string) (w : string) : bool :=
  is_prefix w s && negb (starts_with_word_char (drop_chars (String.length w) s)).

Definition match_word (prev : option ascii) (s : string) : option nat :=
  if boundary_before prev
  then String.length <$> List.find (word_matches s) word_alternatives
  else None.

Definition match_run (p : ascii -> bool) (s : string) : option nat :=
  match span_len p s with
  | O => None
  | k => Some k
  end.

(** [%|,|!=|=] *)
Definition match_symbol (s : string) : option nat :=
  String.length <$> List.find (fun w => is_prefix w s) ["%"; ","; "!="; "="].

(** The one-character ellipsis glyph U+2026, as its three bytes. *)
Definition ellipsis_glyph : string :=
  String "226" (String "128" (String "166" "")).

(** [\.{2,3}|\u2026] *)
Definition match_ellipsis (s : string) : option nat :=
  String.length <$> List.find (fun w => is_prefix w s) ["..."; ".."; ellipsis_glyph].

(** The rules of [_RULES] in priority order; the first that matches at the
    current position wins.  The type is [None] for skipped whitespace. *)
Definition match_rule (prev : option ascii) (s : string) : option (option toktype * nat) :=
  match match_run is_space s with
  | Some k => Some (None, k)
  | None =>
  match match_word prev s with
  | Some k => Some (Some TWord, k)
  | None =>
  match match_run is_digit s with
  | Some k => Some (Some TValue, k)
  | None =>
  match match_symbol s with
  | Some k => Some (Some TSymbol, k)
  | None =>
  match match_ellipsis s with
  | Some k => Some (Some TEllipsis, k)
  | None => None
  end end end end end.

(** Modelled from the spec: the scanning loop of [tokenize_rule], which
    is missing.  At each position the first rule of [_RULES] that matches
    wins; no match is an error that reports the offset and the character.
    [skip] counts the characters of the current match that are still to
    be passed over; at [skip = 0] the rules are tried at the current
    position [pos].  [prev] is the character before [pos]. *)
Fixpoint scan (skip pos : nat) (prev : option ascii) (s : string) : result (list token) :=
  match s with
  | "" => Ok []
  | String ch rest =>
      match skip with
      | S k => scan k (S pos) (Some ch) rest
      | O =>
          match match_rule prev s with
          | None => Raise (TokenizeError pos ch)
          | Some (ty, len) =>
              ts ← scan (Nat.pred len) (S pos) (Some ch) rest;
              Ok (match ty with
                  | Some ty => mkToken ty (take_chars len s) pos :: ts
                  | None => ts
                  end)
          end
      end
  end.

(** Modelled from the spec: [tokenize_rule], missing from the sources,
    returns the tokens in source order, none for a text of whitespace. *)
Definition tokenize_rule (text : string) : result (list token) :=
  scan 0 0 None text.

(** ** Abstract syntax *)

(** Modelled from the spec: the node shapes of the data model.  The
    compilers name the operands ([compile_n] ... [compile_e]) and the nodes
    [value], [mod], [is], [isnot], [and], [or], [not]; the four membership
    nodes [in], [not_in], [within], [not_within] are one constructor with
    a method and a negation flag. *)
Inductive operand : Type :=
| op_n | op_i | op_v | op_w | op_f | op_t | op_c | op_e.

Inductive method : Type := m_in | m_within.

Inductive range : Type :=
| RSingle (k : N)
| RRange (lo hi : N).

Inductive ast : Type :=
| Value (k : N)
| Operand (o : operand)
| Mod (l r : ast)
| Is (l r : ast)
| IsNot (l r : ast)
| Relation (negated : bool) (m : method) (e : ast) (rl : list range)
| And (l r : ast)
| Or (l r : ast)
| Not (a : ast).

#[global] Instance operand_eq_dec : EqDecision operand.
Proof. solve_decision. Defined.

#[global] Instance method_eq_dec : EqDecision method.
Proof. solve_decision. Defined.

#[global] Instance range_eq_dec : EqDecision range.
Proof. solve_decision. Defined.

Definition operand_name (o : operand) : string :=
  match o with
  | op_n => "n" | op_i => "i" | op_v => "v" | op_w => "w"
  | op_f => "f" | op_t => "t" | op_c => "c" | op_e => "e"
  end.

Definition operand_of_name (name : string) : option operand :=
  List.find (fun o => String.eqb (operand_name o) name)
    [op_n; op_i; op_v; op_w; op_f; op_t; op_c; op_e].

Definition method_name (m : method) : string :=
  match m with
  | m_in => "in"
  | m_within => "within"
  end.

(** ** Parser *)

(** Modelled from the spec: the recursive-descent functions of [_Parser]
    are not among the sources; they follow the grammar
<<
    condition       := and_condition ('or' and_condition)*
    and_condition   := relation ('and' relation)*
    relation        := is_relation | in_relation | within_relation
    is_relation     := expr 'is' 'not'? value
    in_relation     := expr ('not'? 'in' | '=' | '!=') range_list
    within_relation := expr 'not'? 'within' range_list
    expr            := operand (('mod'|'%') value)?
    range_list      := (range | value) (',' range_list)*
    range           := value '..' value
>>
    Each function takes the tokens that remain and returns its node with
    the tokens left over. *)

Definition tok_is (ty : toktype) (text : string) (t : token) : bool :=
  bool_decide (tok_type t = ty) && String.eqb (tok_text t) text.

(** Consume the next token when it has the given type and text. *)
Definition skip_token (ty : toktype) (text : string) (ts : list token) : option (list token) :=
  match ts with
  | t :: rest => if tok_is ty text t then Some rest else None
  | [] => None
  end.

Definition unexpected (what : string) (ts : list token) : exn :=
  match ts with
  | t :: _ => RuleError ("Expected " +:+ what +:+ ", got '" +:+ tok_text t +:+ "'")
  | [] => RuleError ("Expected " +:+ what +:+ ", got end of rule")
  end.

(** Modelled from the spec: [value] of the missing parser. *)
Definition parse_value (ts : list token) : result (N * list token) :=
  match ts with
  | t :: rest =>
      match tok_type t, int_of_digits (tok_text t) with
      | TValue, Some k => Ok (k, rest)
      | _, _ => Raise (unexpected "value" ts)
      end
  | [] => Raise (unexpected "value" ts)
  end.

(** Modelled from the spec: [expr] of the missing parser. *)
Definition parse_expr (ts : list token) : result (ast * list token) :=
  match ts with
  | t :: rest =>
      match tok_type t, operand_of_name (tok_text t) with
      | TWord, Some o =>
          match skip_token TWord "mod" rest, skip_token TSymbol "%" rest with
          | Some rest', _ | None, Some rest' =>
              '(k, rest'') ← parse_value rest';
              Ok (Mod (Operand o) (Value k), rest'')
          | None, None => Ok (Operand o, rest)
          end
      | _, _ => Raise (unexpected "operand" ts)
      end
  | [] => Raise (unexpected "operand" ts)
  end.

(** Modelled from the spec: [range_list] of the missing parser.  It is
    structural on the tokens, since each item and the comma after it are
    read off the front of the list. *)
Fixpoint parse_range_list (ts : list token) : result (list range * list token) :=
  match ts with
  | t1 :: rest1 =>
      match tok_type t1, int_of_digits (tok_text t1) with
      | TValue, Some lo =>
          match rest1 with
          | t2 :: rest2 =>
              match tok_type t2 with
              | TEllipsis =>
                  match rest2 with
                  | t3 :: rest3 =>
                      match tok_type t3, int_of_digits (tok_text t3) with
                      | TValue, Some hi =>
                          match rest3 with
                          | t4 :: rest4 =>
                              if tok_is TSymbol "," t4 then
                                '(items, remaining) ← parse_range_list rest4;
                                Ok (RRange lo hi :: items, remaining)
                              else Ok ([RRange lo hi], rest3)
                          | [] => Ok ([RRange lo hi], rest3)
                          end
                      | _, _ => Raise (unexpected "value" rest2)
                      end
                  | [] => Raise (unexpected "value" rest2)
                  end
              | _ =>
                  if tok_is TSymbol "," t2 then
                    '(items, remaining) ← parse_range_list rest2;
                    Ok (RSingle lo :: items, remaining)
                  else Ok ([RSingle lo], rest1)
              end
          | [] => Ok ([RSingle lo], rest1)
          end
      | _, _ => Raise (unexpected "value" ts)
      end
  | [] => Raise (unexpected "value" ts)
  end.

(** Modelled from the spec: [relation] of the missing parser; [=] reads
    as [in] and [!=] as [not in]. *)
Definition parse_relation (ts : list token) : result (ast * list token) :=
  '(lhs, ts1) ← parse_expr ts;
  match skip_token TWord "is" ts1 with
  | Some ts2 =>
      match skip_token TWord "not" ts2 with
      | Some ts3 => '(k, ts4) ← parse_value ts3; Ok (IsNot lhs (Value k), ts4)
      | None => '(k, ts4) ← parse_value ts2; Ok (Is lhs (Value k), ts4)
      end
  | None =>
      match skip_token TWord "not" ts1 with
      | Some ts2 =>
          match skip_token TWord "within" ts2, skip_token TWord "in" ts2 with
          | Some ts3, _ =>
              '(rl, ts4) ← parse_range_list ts3; Ok (Relation true m_within lhs rl, ts4)
          | None, Some ts3 =>
              '(rl, ts4) ← parse_range_list ts3; Ok (Relation true m_in lhs rl, ts4)
          | None, None => Raise (unexpected "'in' or 'within'" ts2)
          end
      | None =>
          match skip_token TWord "within" ts1, skip_token TWord "in" ts1,
                skip_token TSymbol "=" ts1, skip_token TSymbol "!=" ts1 with
          | Some ts3, _, _, _ =>
              '(rl, ts4) ← parse_range_list ts3; Ok (Relation false m_within lhs rl, ts4)
          | None, Some ts3, _, _ | None, None, Some ts3, _ =>
              '(rl, ts4) ← parse_range_list ts3; Ok (Relation false m_in lhs rl, ts4)
          | None, None, None, Some ts3 =>
              '(rl, ts4) ← parse_range_list ts3; Ok (Relation true m_in lhs rl, ts4)
          | None, None, None, None => Raise (unexpected "relation" ts1)
          end
      end
  end.

(** Modelled from the spec: [and_condition] and [condition] of the
    missing parser.  The loops [('and' relation)*] and
    [('or' and_condition)*] nest to the left and run on fuel;
    [parse_condition] gives them as much fuel as there are tokens, which
    is never used up ([_Parser_total]). *)
Fixpoint and_loop (fuel : nat) (lhs : ast) (ts : list token) : result (ast * list token) :=
  match skip_token TWord "and" ts with
  | None => Ok (lhs, ts)
  | Some ts1 =>
      match fuel with
      | O => Raise RecursionError
      | S fuel' =>
          '(rhs, ts2) ← parse_relation ts1;
          and_loop fuel' (And lhs rhs) ts2
      end
  end.

Definition parse_and_condition (fuel : nat) (ts : list token) : result (ast * list token) :=
  '(lhs, ts1) ← parse_relation ts;
  and_loop fuel lhs ts1.

Fixpoint or_loop (fuel : nat) (lhs : ast) (ts : list token) : result (ast * list token) :=
  match skip_token TWord "or" ts with
  | None => Ok (lhs, ts)
  | Some ts1 =>
      match fuel with
      | O => Raise RecursionError
      | S fuel' =>
          '(rhs, ts2) ← parse_and_condition fuel' ts1;
          or_loop fuel' (Or lhs rhs) ts2
      end
  end.

Definition parse_condition (ts : list token) : result (ast * list token) :=
  let fuel := length ts in
  '(lhs, ts1) ← parse_and_condition fuel ts;
  or_loop fuel lhs ts1.

(** [_Parser.__init__]: the attribute [ast], [None] for a rule without
    tokens.
<<
    self.tokens = tokenize_rule(string)
    if not self.tokens:
        self.ast = None
        return
    self.ast = self.condition()
    if self.tokens:
        raise RuleError(f'Expected end of rule, got {self.tokens[-1][1]!r}')
>> *)
Definition _Parser (text : string) : result (option ast) :=
  tokens ← tokenize_rule text;
  match tokens with
  | [] => Ok None
  | _ :: _ =>
      '(a, remaining) ← parse_condition tokens;
      match List.last (Some <$> remaining) None with
      | None => Ok (Some a)
      | Some t => Raise (RuleError ("Expected end of rule, got '" +:+ tok_text t +:+ "'"))
      end
  end.

(** ** Compilers *)

(** A compiler is its table of [compile_*] attributes.  The handler of the
    membership nodes is in none of the classes as the sources have them;
    each backend takes its own as a parameter, and the Unicode one is
    modelled from the surface syntax. *)
Definition relation_handler : Type := bool -> method -> string -> list range -> string.

Record Compiler : Type := mkCompiler {
  compile_n : string;
  compile_i : string;
  compile_v : string;
  compile_w : string;
  compile_f : string;
  compile_t : string;
  compile_c : string;
  compile_e : string;
  compile_value : N -> string;
  compile_and : string -> string -> string;
  compile_or : string -> string -> string;
  compile_not : string -> string;
  compile_mod : string -> string -> string;
  compile_is : string -> string -> string;
  compile_isnot : string -> string -> string;
  compile_relation : relation_handler
}.

(** Modelled from the spec: [_binary_compiler] and [_unary_compiler] are
    stubs in the sources; the handler they build fills the template with
    the compiled children. *)
Definition _binary_compiler (tmpl : string) : string -> string -> string :=
  fun lhs rhs => percent_format tmpl [lhs; rhs].

Definition _unary_compiler (tmpl : string) : string -> string :=
  fun x => percent_format tmpl [x].

Definition compile_zero : string := "0".

Definition _Compiler (relation : relation_handler) : Compiler := {|
  compile_n := "n";
  compile_i := "i";
  compile_v := "v";
  compile_w := "w";
  compile_f := "f";
  compile_t := "t";
  compile_c := "c";
  compile_e := "e";
  compile_value := str_N;
  compile_and := _binary_compiler "(%s && %s)";
  compile_or := _binary_compiler "(%s || %s)";
  compile_not := _unary_compiler "(!%s)";
  compile_mod := _binary_compiler "(%s %% %s)";
  compile_is := _binary_compiler "(%s == %s)";
  compile_isnot := _binary_compiler "(%s != %s)";
  compile_relation := relation
|}.

Definition _PythonCompiler (relation : relation_handler) : Compiler :=
  let base := _Compiler relation in {|
  compile_n := compile_n base;
  compile_i := compile_i base;
  compile_v := compile_v base;
  compile_w := compile_w base;
  compile_f := compile_f base;
  compile_t := compile_t base;
  compile_c := compile_c base;
  compile_e := compile_e base;
  compile_value := compile_value base;
  compile_and := _binary_compiler "(%s and %s)";
  compile_or := _binary_compiler "(%s or %s)";
  compile_not := _unary_compiler "(not %s)";
  compile_mod := _binary_compiler "MOD(%s, %s)";
  compile_is := compile_is base;
  compile_isnot := compile_isnot base;
  compile_relation := compile_relation base
|}.

Definition _GettextCompiler (relation : relation_handler) : Compiler :=
  let base := _Compiler relation in {|
  compile_n := compile_n base;
  compile_i := compile_n base;
  compile_v := compile_zero;
  compile_w := compile_zero;
  compile_f := compile_zero;
  compile_t := compile_zero;
  compile_c := compile_c base;
  compile_e := compile_e base;
  compile_value := compile_value base;
  compile_and := compile_and base;
  compile_or := compile_or base;
  compile_not := compile_not base;
  compile_mod := compile_mod base;
  compile_is := compile_is base;
  compile_isnot := compile_isnot base;
  compile_relation := compile_relation base
|}.

Definition _JavaScriptCompiler (relation : relation_handler) : Compiler :=
  let base := _GettextCompiler relation in {|
  compile_n := compile_n base;
  compile_i := "parseInt(n, 10)";
  compile_v := compile_zero;
  compile_w := compile_zero;
  compile_f := compile_zero;
  compile_t := compile_zero;
  compile_c := compile_c base;
  compile_e := compile_e base;
  compile_value := compile_value base;
  compile_and := compile_and base;
  compile_or := compile_or base;
  compile_not := compile_not base;
  compile_mod := compile_mod base;
  compile_is := compile_is base;
  compile_isnot := compile_isnot base;
  compile_relation := compile_relation base
|}.

(** Modelled from the spec: the canonical text of a membership node, as in
    [n in 1,11] and [n not within 3..10,13..19]. *)
Definition render_range (r : range) : string :=
  match r with
  | RSingle k => str_N k
  | RRange lo hi => str_N lo +:+ ".." +:+ str_N hi
  end.

(** Modelled from the spec: the handler of the membership nodes of the
    Unicode backend, missing from [_UnicodeCompiler]. *)
Definition unicode_relation : relation_handler := fun negated m e rl =>
  e +:+ (if negated then " not" else "") +:+ " " +:+ method_name m +:+ " " +:+
  join "," (render_range <$> rl).

Definition _UnicodeCompiler : Compiler :=
  let base := _Compiler unicode_relation in {|
  compile_n := compile_n base;
  compile_i := compile_i base;
  compile_v := compile_v base;
  compile_w := compile_w base;
  compile_f := compile_f base;
  compile_t := compile_t base;
  compile_c := compile_c base;
  compile_e := compile_e base;
  compile_value := compile_value base;
  compile_and := _binary_compiler "%s and %s";
  compile_or := _binary_compiler "%s or %s";
  compile_not := compile_not base;
  compile_mod := _binary_compiler "%s mod %s";
  compile_is := _binary_compiler "%s is %s";
  compile_isnot := _binary_compiler "%s is not %s";
  compile_relation := compile_relation base
|}.

Definition compile_operand (c : Compiler) (o : operand) : string :=
  match o with
  | op_n => compile_n c | op_i => compile_i c | op_v => compile_v c
  | op_w => compile_w c | op_f => compile_f c | op_t => compile_t c
  | op_c => compile_c c | op_e => compile_e c
  end.

(** Modelled from the spec: [_Compiler.compile] dispatches on the tag of
    the node to the handler of that name. *)
Fixpoint compile (c : Compiler) (a : ast) : string :=
  match a with
  | Value k => compile_value c k
  | Operand o => compile_operand c o
  | Mod l r => compile_mod c (compile c l) (compile c r)
  | Is l r => compile_is c (compile c l) (compile c r)
  | IsNot l r => compile_isnot c (compile c l) (compile c r)
  | Relation negated m e rl => compile_relation c negated m (compile c e) rl
  | And l r => compile_and c (compile c l) (compile c r)
  | Or l r => compile_or c (compile c l) (compile c r)
  | Not x => compile_not c (compile c x)
  end.

(** ** Operands *)

Record operands : Type := mkOperands {
  o_n : Decimal;
  o_i : N;
  o_v : N;
  o_w : N;
  o_f : N;
  o_t : N;
  o_c : N;
  o_e : N
}.

(** Drop up to [count] trailing zero digits of [frac]; what is left is the
    number of remaining digits and their value. *)
Fixpoint strip_trailing_zeros (count : nat) (frac : N) : nat * N :=
  match count with
  | O => (O, frac)
  | S count' =>
      if (frac mod 10 =? 0)%N then strip_trailing_zeros count' (frac / 10)%N
      else (count, frac)
  end.

(** The decimal an input stands for: a float goes through its string, an
    int has no fraction digits. *)
Definition to_decimal (source : pynum) : Decimal :=
  match source with
  | PInt z => mkDecimal (z <? 0) (Z.abs_N z) 0
  | PFloat d | PDec d => d
  end.

(** Modelled from the spec: [extract_operands] has no body in the sources.
    [n] is the absolute value as an exact decimal, [i] its integer part,
    [v] and [f] the count and the value of the digits after the decimal
    point, [w] and [t] the same without trailing zeros, [c] and [e] zero. *)
Definition extract_operands (source : pynum) : operands :=
  let d := to_decimal source in
  let n := mkDecimal false (dec_coef d) (dec_exp d) in
  if 0 <=? dec_exp d then
    mkOperands n (dec_coef d * 10 ^ Z.to_N (dec_exp d))%N 0 0 0 0 0 0
  else
    let v := Z.to_nat (- dec_exp d) in
    let scale := (10 ^ N.of_nat v)%N in
    let f := (dec_coef d mod scale)%N in
    let '(w, t) := strip_trailing_zeros v f in
    mkOperands n (dec_coef d / scale)%N (N.of_nat v) (N.of_nat w) f t 0 0.

(** ** The generated Python function *)

(** [exec] of the text that [to_python] builds defines [plural] from the
    lines that follow the [def] line at a deeper indentation; a statement
    that follows them at column 0 is outside the function.  The model
    reads the three statement forms of the template. *)
Inductive stmt : Type :=
| SUnpack
| SIf (cond tag : string)
| SReturn (tag : string).

(** The text before and after the first occurrence of [sub] in [s]. *)
Fixpoint split_at (sub s : string) : option (string * string) :=
  if is_prefix sub s then Some ("", drop_chars (String.length sub) s)
  else match s with
       | String ch s' => (fun p : string * string => (String ch p.1, p.2)) <$> split_at sub s'
       | "" => None
       end.

(** [s] without its closing quote. *)
Definition strip_quote (s : string) : option string :=
  match String.rev s with
  | String "'" r => Some (String.rev r)
  | _ => None
  end.

(** The statement on a line of the template: the unpacking of the
    operands, [return '<tag>'] or [if <cond>: return '<tag>']. *)
Definition parse_stmt (line : string) : option stmt :=
  if String.eqb line "n, i, v, w, f, t, c, e = extract_operands(n)" then Some SUnpack
  else if is_prefix "return '" line then
    SReturn <$> strip_quote (drop_chars 8 line)
  else if is_prefix "if " line then
    '(cond, rest) ← split_at ": return '" (drop_chars 3 line);
    SIf cond <$> strip_quote rest
  else None.

Definition indent_of (line : string) : nat := span_len (Ascii.eqb " ") line.

Definition indented (line : string) : bool := (0 <? indent_of line)%nat.

(** Whether the statement on the line contains a [return]. *)
Definition has_return (line : string) : bool :=
  match parse_stmt line with
  | Some (SIf _ _) | Some (SReturn _) => true
  | _ => false
  end.

(** The statements of the body of the function. *)
Fixpoint parse_body (lines : list string) : result (list stmt) :=
  match lines with
  | [] => Ok []
  | line :: rest =>
      match parse_stmt (drop_chars (indent_of line) line) with
      | Some st => body ← parse_body rest; Ok (st :: body)
      | None => Raise (SyntaxError "invalid syntax")
      end
  end.

(** The indented block at the head of [lines], and the lines after it. *)
Fixpoint block (lines : list string) : list string * list string :=
  match lines with
  | line :: rest =>
      if indented line then
        let '(body, after) := block rest in (line :: body, after)
      else ([], lines)
  | [] => ([], [])
  end.

(** [exec(source, namespace)]: the body of [plural], or the
    [SyntaxError] that compiling the text raises. *)
Definition exec_def (source : string) : result (list stmt) :=
  match split_lines source with
  | header :: rest =>
      if String.eqb header "def plural(n):" then
        match block rest with
        | ([], _) => Raise (SyntaxError "expected an indented block")
        | (body, []) => parse_body body
        | (_, after) =>
            if existsb has_return after
            then Raise (SyntaxError "'return' outside function")
            else Raise (SyntaxError "invalid syntax")
        end
      else Raise (SyntaxError "invalid syntax")
  | [] => Raise (SyntaxError "invalid syntax")
  end.

(** ** [PluralRule] *)

(** [__slots__ = ('abstract', '_func')]; [_func] is unset until the first
    call. *)
Record PluralRule : Type := mkPluralRule {
  abstract : list (string * ast);
  _func : option (list stmt)
}.

(** The argument of the constructor: a mapping or an iterable of pairs. *)
Inductive rules_input : Type :=
| FromMapping (m : gmap string string)
| FromPairs (l : list (string * string)).

(** The order of [sorted] on pairs of strings. *)
Definition pair_leb (p q : string * string) : bool :=
  match String.compare p.1 q.1 with
  | Lt => true
  | Eq => String.leb p.2 q.2
  | Gt => false
  end.

Definition pair_le (p q : string * string) : Prop := pair_leb p q = true.

#[global] Instance pair_le_dec : RelDecision pair_le.
Proof. intros p q. unfold pair_le. solve_decision. Defined.

Definition sorted (l : list (string * string)) : list (string * string) :=
  merge_sort pair_le l.

Definition items (rules : rules_input) : list (string * string) :=
  match rules with
  | FromMapping m => map_to_list m
  | FromPairs l => l
  end.

(** The loop of [__init__]; [{key!r}] is [repr(key)].
<<
    for key, expr in sorted(rules):
        if key not in _plural_tags:
            raise ValueError(f'unknown tag {key!r}')
        elif key in found:
            raise ValueError(f'tag {key!r} defined twice')
        found.add(key)
        ast = _Parser(expr).ast
        if ast:
            self.abstract.append((key, ast))
>> *)
Fixpoint init_loop (found : gset string) (acc : list (string * ast))
    (pairs : list (string * string)) : result (list (string * ast)) :=
  match pairs with
  | [] => Ok acc
  | (key, expr) :: rest =>
      if bool_decide (key ∉ _plural_tags) then
        Raise (ValueError ("unknown tag " +:+ py_repr key))
      else if bool_decide (key ∈ found) then
        Raise (ValueError ("tag " +:+ py_repr key +:+ " defined twice"))
      else
        a ← _Parser expr;
        init_loop ({[key]} ∪ found)
          (match a with Some a => acc ++ [(key, a)] | None => acc end) rest
  end.

Definition PluralRule_init (rules : rules_input) : result PluralRule :=
  abs ← init_loop ∅ [] (sorted (items rules));
  Ok (mkPluralRule abs None).

(** What a successful run of the loop stores: the pairs whose expression
    has tokens, with their tree, in the order of the loop. *)
Definition stored_entry (p : string * string) : option (string * ast) :=
  match _Parser p.2 with
  | Ok (Some a) => Some (p.1, a)
  | _ => None
  end.

Definition stored_entries (pairs : list (string * string)) : list (string * ast) :=
  omap stored_entry pairs.

Definition parses (expr : string) : Prop := exists a, _Parser expr = Ok a.

Definition occurs_twice (key : string) (keys : list string) : Prop :=
  (2 <= length (filter (fun k => k = key) keys))%nat.

(** Text made of whitespace alone (the empty text included). *)
Definition whitespace_only (text : string) : Prop :=
  span_len is_space text = String.length text.

(** The argument of [parse] and of the converters: a [PluralRule] or the
    argument of its constructor. *)
Inductive rule_arg : Type :=
| IsRule (r : PluralRule)
| IsRules (rules : rules_input).

(** [PluralRule.parse], on values. *)
Definition PluralRule_parse (x : rule_arg) : result PluralRule :=
  match x with
  | IsRule r => Ok r
  | IsRules rules => PluralRule_init rules
  end.

(** [{tag: _UnicodeCompiler().compile(ast) for tag, ast in self.abstract}];
    a later entry of a comprehension replaces an earlier one. *)
Definition PluralRule_rules (self : PluralRule) : gmap string string :=
  list_to_map (reverse ((fun p : string * ast => (p.1, compile _UnicodeCompiler p.2))
                          <$> abstract self)).

(** [frozenset(tag for tag, _ in self.abstract)] *)
Definition PluralRule_tags (self : PluralRule) : gset string :=
  list_to_set ((abstract self).*1).

(** [__getstate__] and [__setstate__]: the pickled state is [abstract];
    the [_func] slot is neither saved nor reset.
<<
    def __getstate__(self): return self.abstract
    def __setstate__(self, abstract): self.abstract = abstract
>> *)
Definition PluralRule_getstate (self : PluralRule) : list (string * ast) :=
  abstract self.

Definition PluralRule_setstate (self : PluralRule) (state : list (string * ast))
    : PluralRule :=
  mkPluralRule state (_func self).

(** ** Objects *)

(** [parse] hands back its argument itself when that is a [PluralRule], so
    its contract is about object identity: objects live in a store and are
    named by their address. *)
Module Objects.

Definition addr : Type := nat.

Definition store : Type := list PluralRule.

Inductive value : Type :=
| VRule (a : addr)
| VMapping (m : gmap string string)
| VPairs (l : list (string * string)).

(** [cls(rules)]: a new object at a fresh address. *)
Definition new (h : store) (rules : rules_input) : result (addr * store) :=
  r ← PluralRule_init rules;
  Ok (length h, h ++ [r]).

(** [if isinstance(rules, PluralRule): return rules] and
    [return cls(rules)] *)
Definition parse (h : store) (rules : value) : result (addr * store) :=
  match rules with
  | VRule a => Ok (a, h)
  | VMapping m => new h (FromMapping m)
  | VPairs l => new h (FromPairs l)
  end.

Definition deref (h : store) (a : addr) : option PluralRule := h !! a.

End Objects.

(** ** Converters *)

Section Converters.

(** The handlers of the membership nodes of the three code backends, and
    the evaluation of a rendered Python condition on the operands: none
    is among the sources. *)
Variables python_relation gettext_relation javascript_relation : relation_handler.
Variable eval_condition : string -> operands -> result bool.

(** The text handed to [exec]:
<<
  parts = []
  for tag, ast in rule.abstract:
      expr = compiler.compile(ast)
      parts.append(f"if {expr}: return '{tag}'")
  parts.append("return 'other'")
  code = '\n'.join(parts)
  exec(f"def plural(n):\n    n, i, v, w, f, t, c, e = extract_operands(n)\n    {code}", namespace)
>> *)
Definition python_parts (rule : PluralRule) : list string :=
  ((fun p : string * ast =>
      "if " +:+ compile (_PythonCompiler python_relation) p.2 +:+
      ": return '" +:+ p.1 +:+ "'") <$> abstract rule) ++ ["return 'other'"].

Definition python_source (rule : PluralRule) : string :=
  "def plural(n):" +:+ LF +:+
  "    n, i, v, w, f, t, c, e = extract_operands(n)" +:+ LF +:+
  "    " +:+ join LF (python_parts rule).

Definition to_python (x : rule_arg) : result (list stmt) :=
  rule ← PluralRule_parse x;
  exec_def (python_source rule).

(** A call of the function that [exec] defined. [None] is Python's. *)
Fixpoint run_body (body : list stmt) (n : pynum) (ops : option operands)
    : result (option string) :=
  match body with
  | [] => Ok None
  | SUnpack :: rest => run_body rest n (Some (extract_operands n))
  | SIf cond tag :: rest =>
      match ops with
      | Some o =>
          b ← eval_condition cond o;
          if (b : bool) then Ok (Some tag) else run_body rest n ops
      | None => Raise (NameError "name 'i' is not defined")
      end
  | SReturn tag :: _ => Ok (Some tag)
  end.

Definition call_plural (func : list stmt) (n : pynum) : result (option string) :=
  run_body func n None.

(** [__call__]: the tag, and the object with its [_func] slot filled.
<<
  if not hasattr(self, '_func'):
      self._func = to_python(self)
  return self._func(n)
>> *)
Definition PluralRule_call (self : PluralRule) (n : pynum)
    : result (option string * PluralRule) :=
  match _func self with
  | Some func => tag ← call_plural func n; Ok (tag, self)
  | None =>
      func ← to_python (IsRule self);
      let self' := mkPluralRule (abstract self) (Some func) in
      tag ← call_plural func n;
      Ok (tag, self')
  end.

(** [to_gettext]:
<<
  for idx, (tag, ast) in enumerate(rule.abstract):
      expr = compiler.compile(ast)
      parts.append(f"({expr}) ? {idx} : ")
  parts.append(str(len(rule.abstract)))
  plural_expr = ''.join(parts)
  return f"nplurals={len(rule.abstract) + 1}; plural=({plural_expr});"
>> *)
Definition gettext_parts (rule : PluralRule) : list string :=
  imap (fun idx (p : string * ast) =>
          "(" +:+ compile (_GettextCompiler gettext_relation) p.2 +:+
          ") ? " +:+ str_nat idx +:+ " : ") (abstract rule)
  ++ [str_nat (length (abstract rule))].

Definition to_gettext (x : rule_arg) : result string :=
  rule ← PluralRule_parse x;
  Ok ("nplurals=" +:+ str_nat (length (abstract rule) + 1) +:+ "; plural=(" +:+
      join "" (gettext_parts rule) +:+ ");").

(** [to_javascript]:
<<
  for tag, ast in rule.abstract:
      expr = compiler.compile(ast)
      parts.append(f"({expr}) ? '{tag}' : ")
  parts.append("'other'")
  return f"(function(n) {{ return {' '.join(parts)}; }})"
>> *)
Definition javascript_parts (rule : PluralRule) : list string :=
  ((fun p : string * ast =>
      "(" +:+ compile (_JavaScriptCompiler javascript_relation) p.2 +:+
      ") ? '" +:+ p.1 +:+ "' : ") <$> abstract rule) ++ ["'other'"].

Definition to_javascript (x : rule_arg) : result string :=
  rule ← PluralRule_parse x;
  Ok ("(function(n) { return " +:+ join " " (javascript_parts rule) +:+ "; })").

End Converters.

(** ** Trees of the grammar and their canonical text *)

(** The trees that the grammar produces: an expression is an operand,
    possibly under [mod]; a relation compares an expression; [and] and [or]
    chains nest to the left, [and] inside [or]. *)
Inductive is_expr : ast -> Prop :=
| expr_operand (o : operand) : is_expr (Operand o)
| expr_mod (o : operand) (k : N) : is_expr (Mod (Operand o) (Value k)).

Inductive is_relation : ast -> Prop :=
| rel_is (e : ast) (k : N) : is_expr e -> is_relation (Is e (Value k))
| rel_isnot (e : ast) (k : N) : is_expr e -> is_relation (IsNot e (Value k))
| rel_member (negated : bool) (m : method) (e : ast) (rl : list range) :
    is_expr e -> rl <> [] -> is_relation (Relation negated m e rl).

Inductive is_and_condition : ast -> Prop :=
| and_relation (r : ast) : is_relation r -> is_and_condition r
| and_step (a r : ast) :
    is_and_condition a -> is_relation r -> is_and_condition (And a r).

Inductive is_condition : ast -> Prop :=
| or_and_condition (a : ast) : is_and_condition a -> is_condition a
| or_step (c a : ast) :
    is_condition c -> is_and_condition a -> is_condition (Or c a).

(** The canonical text of a tree, token by token: each lexeme with a flag
    that tells whether a space precedes it. *)
Inductive lexeme : Type :=
| LWord (w : string)
| LValue (k : N)
| LComma
| LDots.

Definition lexeme_kind (x : lexeme) : toktype * string :=
  match x with
  | LWord w => (TWord, w)
  | LValue k => (TValue, str_N k)
  | LComma => (TSymbol, ",")
  | LDots => (TEllipsis, "..")
  end.

Definition token_kind (t : token) : toktype * string := (tok_type t, tok_text t).

Fixpoint spell (l : list (bool * lexeme)) : string :=
  match l with
  | [] => ""
  | (sp, x) :: rest =>
      (if sp : bool then " " else "") +:+ (lexeme_kind x).2 +:+ spell rest
  end.

Definition layout_kinds (l : list (bool * lexeme)) : list (toktype * string) :=
  (fun p => lexeme_kind p.2) <$> l.

Definition range_layout (sp : bool) (r : range) : list (bool * lexeme) :=
  match r with
  | RSingle k => [(sp, LValue k)]
  | RRange lo hi => [(sp, LValue lo); (false, LDots); (false, LValue hi)]
  end.

Fixpoint ranges_layout (sp : bool) (rl : list range) : list (bool * lexeme) :=
  match rl with
  | [] => []
  | r :: rest =>
      range_layout sp r ++
      match rest with
      | [] => []
      | _ :: _ => (false, LComma) :: ranges_layout false rest
      end
  end.

Fixpoint ast_layout (sp : bool) (a : ast) : list (bool * lexeme) :=
  match a with
  | Value k => [(sp, LValue k)]
  | Operand o => [(sp, LWord (operand_name o))]
  | Mod l r => ast_layout sp l ++ (true, LWord "mod") :: ast_layout true r
  | Is l r => ast_layout sp l ++ (true, LWord "is") :: ast_layout true r
  | IsNot l r =>
      ast_layout sp l ++ (true, LWord "is") :: (true, LWord "not") :: ast_layout true r
  | Relation negated m e rl =>
      ast_layout sp e ++
      (if negated : bool then [(true, LWord "not")] else []) ++
      (true, LWord (method_name m)) :: ranges_layout true rl
  | And l r => ast_layout sp l ++ (true, LWord "and") :: ast_layout true r
  | Or l r => ast_layout sp l ++ (true, LWord "or") :: ast_layout true r
  | Not _ => []
  end.

(** Lexemes that may stand side by side without a space: a value next to
    a comma or to the dots of a range. *)
Definition glue_ok (x y : lexeme) : bool :=
  match x, y with
  | LValue _, (LComma | LDots) => true
  | (LComma | LDots), LValue _ => true
  | _, _ => false
  end.

Definition is_word_lexeme (x : lexeme) : Prop :=
  match x with
  | LWord w => w ∈ word_alternatives
  | _ => True
  end.

Fixpoint well_spaced (l : list (bool * lexeme)) : Prop :=
  match l with
  | [] => True
  | (_, x) :: rest =>
      is_word_lexeme x /\
      match rest with
      | (false, y) :: _ => glue_ok x y = true
      | _ => True
      end /\
      well_spaced rest
  end.

(** The kinds of the tokens of a scan, when it succeeds. *)
Definition scanned_kinds (r : result (list token)) : option (list (toktype * string)) :=
  match r with
  | Ok ts => Some (token_kind <$> ts)
  | Raise _ => None
  end.

(** ** Notions used in the proofs *)

(** The space, or nothing, in front of a lexeme. *)
Definition lead (sp : bool) : string := if sp then " " else "".

(** The last character of [u], or [prev] when [u] is empty. *)
Fixpoint last_of (prev : option ascii) (u : string) : option ascii :=
  match u with
  | "" => prev
  | String c u' => last_of (Some c) u'
  end.

(** Whether the first character of [s] is in the class [p]. *)
Definition starts_with (p : ascii -> bool) (s : string) : bool :=
  match s with
  | String c _ => p c
  | "" => false
  end.

(** The tokens after a match: whitespace adds none. *)
Definition emit (ty : option toktype) (text : string) (pos : nat) (ts : list token) : list token :=
  match ty with
  | Some ty => mkToken ty text pos :: ts
  | None => ts
  end.

(** A word at the very start of a layout needs a boundary before it. *)
Definition first_ok (prev : option ascii) (l : list (bool * lexeme)) : Prop :=
  match l with
  | (false, LWord _) :: _ => boundary_before prev = true
  | _ => True
  end.

(** The layout is empty or begins with a space. *)
Definition spaced_head (l : list (bool * lexeme)) : Prop :=
  match l with
  | (false, _) :: _ => False
  | _ => True
  end.

(** The tokens have the types and texts of the lexemes of a layout. *)
Definition spelled (ts : list token) (l : list (bool * lexeme)) : Prop :=
  token_kind <$> ts = layout_kinds l.

(** The tokens do not go on with [mod] or [%]. *)
Definition no_mod (rest : list token) : Prop :=
  skip_token TWord "mod" rest = None /\ skip_token TSymbol "%" rest = None.

(** The tokens end, or go on with a word: a range list stops there. *)
Definition range_stop (rest : list token) : Prop :=
  match rest with
  | [] => True
  | t :: _ => tok_type t = TWord
  end.

(** The tokens end, or go on with [and] or [or]. *)
Definition stop (rest : list token) : Prop :=
  match rest with
  | [] => True
  | t :: _ => token_kind t = (TWord, "and") \/ token_kind t = (TWord, "or")
  end.

(** The length of the [and] chain at the root, of the [or] chain at the
    root, and the number of [and] and [or] nodes. *)
Fixpoint and_count (a : ast) : nat :=
  match a with
  | And l _ => S (and_count l)
  | _ => O
  end.

Fixpoint or_count (a : ast) : nat :=
  match a with
  | Or l _ => S (or_count l)
  | _ => O
  end.

Fixpoint connectives (a : ast) : nat :=
  match a with
  | And l r | Or l r => S (connectives l + connectives r)
  | _ => O
  end.

(** The tokens end, or go on with [or]. *)
Definition not_and (rest : list token) : Prop :=
  match rest with
  | [] => True
  | t :: _ => token_kind t = (TWord, "or")
  end.

(** An entry of [rules]: the tag with the rendered tree. *)
Definition render_entry (p : string * ast) : string * string :=
  (p.1, compile _UnicodeCompiler p.2).

(** The one error that is the model's own. *)
Definition out_of_fuel {A : Type} (r : result A) : Prop := r = Raise RecursionError.

(** Whether an entry of a range list is hit by [num]: a bare entry by
    [num == range_item], a pair by [start <= num <= end]. *)
Definition hits (num : pynum) (item : range_item) : bool :=
  match item with
  | Bare k => num_eq_int num k
  | Pair lo hi => num_between num lo hi
  end.

(** Whether the operand [i] occurs in a tree. *)
Fixpoint mentions_i (a : ast) : bool :=
  match a with
  | Value _ => false
  | Operand o => bool_decide (o = op_i)
  | Mod l r | Is l r | IsNot l r | And l r | Or l r => mentions_i l || mentions_i r
  | Relation _ _ e _ => mentions_i e
  | Not x => mentions_i x
  end.

(* ================================================================= *)
(** * Theorems *)

(** ** The result monad *)

Lemma bind_Ok {A B : Type} (a : A) (k : A -> result B) : (Ok a ≫= k) = k a.
Proof. reflexivity. Qed.

Lemma bind_Raise {A B : Type} (e : exn) (k : A -> result B) :
  (Raise e ≫= k) = Raise e.
Proof. reflexivity. Qed.

Lemma bind_Ok_inv {A B : Type} (r : result A) (k : A -> result B) (b : B) :
  (r ≫= k) = Ok b -> exists a, r = Ok a /\ k a = Ok b.
Proof. destruct r as [a|e]; [eauto | discriminate]. Qed.

(** ** [cldr_modulo] *)

Example cldr_modulo_doc_3 : cldr_modulo 3 5 = Ok 3.
Proof. reflexivity. Qed.

Example cldr_modulo_neg_dividend : cldr_modulo (-3) 5 = Ok 2.
Proof. reflexivity. Qed.

Example cldr_modulo_both_neg : cldr_modulo (-3) (-5) = Ok (-3).
Proof. reflexivity. Qed.

Lemma py_mod_nonzero (a b : Z) : b <> 0 -> py_mod a b = Ok (a mod b).
Proof. intros Hb. unfold py_mod. destruct (Z.eqb_spec b 0); [contradiction | reflexivity]. Qed.

Lemma py_mod_zero (a : Z) : py_mod a 0 = Raise ZeroDivisionError.
Proof. reflexivity. Qed.

(** On a non-zero divisor the conditional collapses: adding [b] before the
    second [%] changes nothing, so the result is Python's own [a % b]. *)
Lemma cldr_modulo_is_py_mod (a b : Z) : b <> 0 -> cldr_modulo a b = Ok (a mod b).
Proof.
  intros Hb. unfold cldr_modulo.
  destruct (a <? 0); rewrite !py_mod_nonzero by assumption; [|reflexivity].
  cbn. rewrite py_mod_nonzero by assumption. f_equal.
  rewrite <- (Z.mul_1_l b) at 2.
  rewrite Z.mod_add by assumption. apply Z.mod_mod; assumption.
Qed.

Lemma cldr_modulo_zero_divisor (a : Z) : cldr_modulo a 0 = Raise ZeroDivisionError.
Proof. unfold cldr_modulo. destruct (a <? 0); reflexivity. Qed.

Lemma nonneg_mod_bound (a b : Z) : b <> 0 -> 0 <= nonneg_mod a b < Z.abs b.
Proof. intros Hb. unfold nonneg_mod. apply Z.mod_pos_bound. lia. Qed.





(** ** Decimals *)

Lemma dec_den_pos (d : Decimal) : 0 < dec_den d.
Proof. unfold dec_den. apply Z.pow_pos_nonneg; lia. Qed.

Lemma round_half_even_nonneg (num den : Z) :
  0 < den -> 0 <= num -> 0 <= round_half_even num den.
Proof.
  intros Hd Hn. unfold round_half_even.
  assert (0 <= num / den) by (apply Z.div_pos; lia).
  destruct (2 * (num mod den) ?= den); [destruct (Z.even _)| |]; lia.
Qed.

Lemma round_half_even_exact (num den : Z) :
  0 < den -> 0 <= num ->
  round_half_even num den * den = num <-> num mod den = 0.
Proof.
  intros Hd Hn. unfold round_half_even.
  pose proof (Z.div_mod num den ltac:(lia)) as Hdm.
  pose proof (Z.mod_pos_bound num den Hd) as Hb.
  set (q := num / den) in *. set (r := num mod den) in *.
  destruct (Z.compare_spec (2 * r) den) as [He|Hl|Hg].
  - destruct (Z.even q); split; intros; nia.
  - split; intros; nia.
  - split; intros; nia.
Qed.

Lemma dec_eqb_true (d1 d2 : Decimal) :
  dec_eqb d1 d2 = true <-> dec_num d1 * dec_den d2 = dec_num d2 * dec_den d1.
Proof.
  unfold dec_eqb, dec_compare. rewrite <- Z.compare_eq_iff.
  destruct (_ ?= _); split; congruence.
Qed.

Lemma dec_integral_iff (d : Decimal) :
  dec_eqb (to_integral_value d) d = true <->
  exists k : Z, dec_compare_int d k = Eq.
Proof.
  rewrite dec_eqb_true. unfold dec_compare_int.
  setoid_rewrite Z.compare_eq_iff.
  unfold to_integral_value.
  destruct (Z.leb_spec 0 (dec_exp d)) as [Hexp|Hexp].
  - split; [intros _|reflexivity].
    exists (dec_num d). unfold dec_den. rewrite Z.max_r by lia. cbn. lia.
  - pose proof (dec_den_pos d) as Hden.
    pose proof (N2Z.is_nonneg (dec_coef d)) as Hcoef.
    pose proof (round_half_even_nonneg _ _ Hden Hcoef) as Hm.
    pose proof (round_half_even_exact _ _ Hden Hcoef) as Hex.
    set (m := round_half_even (Z.of_N (dec_coef d)) (dec_den d)) in *.
    set (r := mkDecimal (dec_sign d) (Z.to_N m) 0).
    assert (Hnum : dec_num d = dec_signed d).
    { unfold dec_num. rewrite Z.max_r by lia. cbn. lia. }
    assert (Hnr : dec_num r = if dec_sign d then - m else m).
    { unfold dec_num, dec_signed, r. cbn [dec_sign dec_coef dec_exp].
      rewrite Z2N.id by assumption. rewrite Z.max_id, Z.pow_0_r.
      destruct (dec_sign d); lia. }
    assert (Hdr : dec_den r = 1) by reflexivity.
    rewrite Hnr, Hdr, Hnum. unfold dec_signed in *.
    split.
    + intros H. exists (if dec_sign d then - m else m). lia.
    + intros [k Hk].
      assert (Hmod : Z.of_N (dec_coef d) mod dec_den d = 0).
      { apply Z.mod_divide; [lia|].
        destruct (dec_sign d); [exists (- k) | exists k]; lia. }
      apply Hex in Hmod. destruct (dec_sign d); lia.
Qed.

(** ** [in_range_list] and [within_range_list] *)

Example in_range_list_doc_1_2 :
  in_range_list (PFloat (mkDecimal false 12 (-1))) [Pair 1 4] = Ok false.
Proof. reflexivity. Qed.

Example within_range_list_doc_1_2 :
  within_range_list (PFloat (mkDecimal false 12 (-1))) [Pair 1 4] = Ok true.
Proof. reflexivity. Qed.

Example in_range_list_doc_10 : in_range_list (PInt 10) [Pair 1 4] = Ok false.
Proof. reflexivity. Qed.

Lemma within_range_loop_spec (num : pynum) (rs : list range_item) :
  within_range_loop num rs = true <-> within_range_list_spec num rs.
Proof.
  unfold within_range_list_spec, matches_bare, matches_pair.
  induction rs as [|[k|lo hi] rs IH]; cbn [within_range_loop].
  - split; [discriminate|]. intros [(k & H & _)|(lo & hi & H & _)]; inversion H.
  - destruct (num_eq_int num k) eqn:E.
    + split; [intros _|reflexivity]. left. exists k. split; [left|assumption].
    + rewrite IH. split.
      * intros [(k' & H & Hk)|(lo & hi & H & Hb)].
        -- left. exists k'. split; [right|]; assumption.
        -- right. exists lo, hi. split; [right|]; assumption.
      * intros [(k' & H & Hk)|(lo & hi & H & Hb)].
        -- apply elem_of_cons in H as [H|H]; [congruence|]. left. eauto.
        -- apply elem_of_cons in H as [H|H]; [discriminate|]. right. eauto.
  - destruct (num_between num lo hi) eqn:E.
    + split; [intros _|reflexivity]. right. exists lo, hi. split; [left|assumption].
    + rewrite IH. split.
      * intros [(k' & H & Hk)|(lo' & hi' & H & Hb)].
        -- left. exists k'. split; [right|]; assumption.
        -- right. exists lo', hi'. split; [right|]; assumption.
      * intros [(k' & H & Hk)|(lo' & hi' & H & Hb)].
        -- apply elem_of_cons in H as [H|H]; [discriminate|]. left. eauto.
        -- apply elem_of_cons in H as [H|H]; [congruence|]. right. eauto.
Qed.

(** [within_range_list] is total and decides the unrestricted test. *)
Lemma within_range_list_correct (num : pynum) (rs : list range_item) :
  exists b, within_range_list num rs = Ok b /\
    (b = true <-> within_range_list_spec (coerce_float num) rs).
Proof. eexists. split; [reflexivity|]. apply within_range_loop_spec. Qed.

(** On a Decimal, [in_range_list] is total and decides the integer test. *)
Lemma in_range_loop_decimal (d : Decimal) (rs : list range_item) :
  exists b, in_range_loop (PDec d) rs = Ok b /\
    (b = true <-> in_range_list_spec (PDec d) rs).
Proof.
  unfold in_range_list_spec, matches_bare, matches_pair.
  induction rs as [|[k|lo hi] rs (b & IHe & IH)]; cbn [in_range_loop].
  - exists false. split; [reflexivity|]. split; [discriminate|].
    intros [(k & H & _)|((lo & hi & H & _) & _)]; inversion H.
  - destruct (num_eq_int (PDec d) k) eqn:E.
    + exists true. split; [reflexivity|]. split; [intros _|reflexivity].
      left. exists k. split; [left|assumption].
    + exists b. split; [assumption|]. rewrite IH. split.
      * intros [(k' & H & Hk)|((lo & hi & H & Hb) & Hz)].
        -- left. exists k'. split; [right|]; assumption.
        -- right. split; [|assumption]. exists lo, hi. split; [right|]; assumption.
      * intros [(k' & H & Hk)|((lo & hi & H & Hb) & Hz)].
        -- apply elem_of_cons in H as [H|H]; [congruence|]. left. eauto.
        -- apply elem_of_cons in H as [H|H]; [discriminate|]. right. eauto.
  - destruct (num_between (PDec d) lo hi) eqn:E.
    + cbn [num_is_integral]. rewrite bind_Ok.
      destruct (dec_eqb (to_integral_value d) d) eqn:Ei.
      * exists true. split; [reflexivity|]. split; [intros _|reflexivity].
        right. split; [|apply dec_integral_iff; assumption].
        exists lo, hi. split; [left|assumption].
      * exists b. split; [assumption|]. rewrite IH.
        assert (Hn : ~ has_zero_fraction (PDec d)).
        { intros Hz. apply dec_integral_iff in Hz. congruence. }
        split.
        -- intros [(k' & H & Hk)|(_ & Hz)]; [|contradiction].
           left. exists k'. split; [right|]; assumption.
        -- intros [(k' & H & Hk)|(_ & Hz)]; [|contradiction].
           apply elem_of_cons in H as [H|H]; [discriminate|]. left. eauto.
    + exists b. split; [assumption|]. rewrite IH. split.
      * intros [(k' & H & Hk)|((lo' & hi' & H & Hb) & Hz)].
        -- left. exists k'. split; [right|]; assumption.
        -- right. split; [|assumption]. exists lo', hi'. split; [right|]; assumption.
      * intros [(k' & H & Hk)|((lo' & hi' & H & Hb) & Hz)].
        -- apply elem_of_cons in H as [H|H]; [discriminate|]. left. eauto.
        -- apply elem_of_cons in H as [H|H]; [congruence|]. right. eauto.
Qed.

Lemma in_range_list_float_or_decimal (num : pynum) (rs : list range_item) :
  (forall z, num <> PInt z) ->
  exists b, in_range_list num rs = Ok b /\
    (b = true <-> in_range_list_spec (coerce_float num) rs).
Proof.
  intros Hnum. unfold in_range_list.
  destruct num as [z|d|d]; [destruct (Hnum z); reflexivity| |];
    apply in_range_loop_decimal.
Qed.

(** On an int, the first pair that contains [num] ends the loop with an
    [AttributeError]: the integrality test calls a Decimal method. *)
Lemma in_range_list_int_pair (z lo hi : Z) (rest : list range_item) :
  lo <= z <= hi ->
  in_range_list (PInt z) (Pair lo hi :: rest) =
  Raise (AttributeError "'int' object has no attribute 'to_integral_value'").
Proof.
  intros [Hlo Hhi]. unfold in_range_list. cbn.
  destruct (Z.leb_spec lo z); [|lia]. destruct (Z.leb_spec z hi); [|lia].
  reflexivity.
Qed.

(** C3: the docstring example [in_range_list(1, [(1, 3)])], which the claim
    gives as [True], raises instead of returning. *)
Theorem in_range_list_int_1_raises :
  in_range_list (PInt 1) [Pair 1 3] =
  Raise (AttributeError "'int' object has no attribute 'to_integral_value'").
Proof. reflexivity. Qed.

(** ** Strings *)

Lemma append_cons (ch : ascii) (s1 s2 : string) :
  String ch s1 +:+ s2 = String ch (s1 +:+ s2).
Proof. reflexivity. Qed.

Lemma append_nil_l (s : string) : "" +:+ s = s.
Proof. reflexivity. Qed.

Lemma append_assoc (s1 s2 s3 : string) : (s1 +:+ s2) +:+ s3 = s1 +:+ (s2 +:+ s3).
Proof.
  induction s1 as [|ch s1 IH]; [reflexivity|].
  rewrite !append_cons. by rewrite IH.
Qed.

Lemma append_nil_r (s : string) : s +:+ "" = s.
Proof.
  induction s as [|ch s IH]; [reflexivity|].
  rewrite append_cons. by rewrite IH.
Qed.

Lemma length_append (s1 s2 : string) :
  String.length (s1 +:+ s2) = (String.length s1 + String.length s2)%nat.
Proof.
  induction s1 as [|ch s1 IH]; [reflexivity|].
  rewrite append_cons. cbn [String.length]. by rewrite IH.
Qed.

Lemma join_snoc (sep : string) (parts : list string) (last : string) :
  parts <> [] -> join sep (parts ++ [last]) = join sep parts +:+ sep +:+ last.
Proof.
  induction parts as [|p [|q parts] IH]; intros Hne; [done | reflexivity |].
  change (join sep ((p :: q :: parts) ++ [last]))
    with (p +:+ sep +:+ join sep ((q :: parts) ++ [last])).
  rewrite IH by done.
  change (join sep (p :: q :: parts)) with (p +:+ sep +:+ join sep (q :: parts)).
  by rewrite !append_assoc.
Qed.

Lemma split_lines_aux_app (cur a b : string) :
  split_lines_aux cur (a +:+ LF +:+ b) = split_lines_aux cur a ++ split_lines_aux "" b.
Proof.
  revert cur. induction a as [|ch a IH]; intros cur; [reflexivity|].
  rewrite append_cons. cbn [split_lines_aux].
  destruct (Ascii.eqb ch "010"); [rewrite <- app_comm_cons; f_equal|]; apply IH.
Qed.

Lemma split_lines_app (a b : string) :
  split_lines (a +:+ LF +:+ b) = split_lines a ++ split_lines b.
Proof. apply split_lines_aux_app. Qed.

Lemma split_lines_nonempty (s : string) : split_lines s <> [].
Proof.
  unfold split_lines. generalize "" as cur.
  induction s as [|ch s IH]; intros cur; cbn; [done|].
  destruct (Ascii.eqb ch "010"); [done | apply IH].
Qed.

(** ** [to_python] *)

(** A block never swallows a line at column 0: whatever precedes it, an
    unindented last line is left after the block. *)
Lemma block_unindented_last (lines : list string) (last : string) :
  indented last = false ->
  exists body after, block (lines ++ [last]) = (body, after ++ [last]).
Proof.
  intros Hlast. induction lines as [|line lines (body & after & IH)];
    cbn [block app].
  - rewrite Hlast. by exists [], [].
  - destruct (indented line).
    + rewrite IH. by exists (line :: body), after.
    + by exists [], (line :: lines).
Qed.

Section ToPython.

Variable python_relation : relation_handler.

Lemma python_parts_snoc (rule : PluralRule) :
  exists ifs, python_parts python_relation rule = ifs ++ ["return 'other'"] /\
    length ifs = length (abstract rule).
Proof. eexists. split; [reflexivity|]. by rewrite length_fmap. Qed.

(** The lines of the generated text: with at least one rule, the last
    one is [return 'other'] at column 0. *)
Lemma python_source_lines (rule : PluralRule) :
  abstract rule <> [] ->
  exists mid,
    split_lines (python_source python_relation rule) =
    "def plural(n):" :: "    n, i, v, w, f, t, c, e = extract_operands(n)" ::
    mid ++ ["return 'other'"].
Proof.
  intros Hne. unfold python_source.
  destruct (python_parts_snoc rule) as (ifs & -> & Hlen).
  assert (ifs <> []) as Hifs.
  { destruct ifs; [|done]. destruct (abstract rule); [done | discriminate]. }
  rewrite join_snoc by done.
  rewrite <- (append_assoc "    " (join LF ifs)).
  rewrite 2!split_lines_app.
  rewrite split_lines_app.
  exists (split_lines ("    " +:+ join LF ifs)). reflexivity.
Qed.

Lemma to_python_rule_nonempty (rule : PluralRule) :
  abstract rule <> [] ->
  to_python python_relation (IsRule rule) =
  Raise (SyntaxError "'return' outside function").
Proof.
  intros Hne. unfold to_python. cbn [PluralRule_parse]. rewrite bind_Ok.
  unfold exec_def.
  destruct (python_source_lines rule Hne) as (mid & ->).
  change ("def plural(n):" =? "def plural(n):")%string with true. cbv iota.
  cbn [block].
  change (indented "    n, i, v, w, f, t, c, e = extract_operands(n)") with true.
  cbv iota.
  destruct (block_unindented_last mid "return 'other'" eq_refl)
    as (body & after & ->).
  destruct after as [|line after]; cbn [app].
  - reflexivity.
  - cbn [existsb]. rewrite existsb_app. cbn [existsb].
    change (has_return "return 'other'") with true.
    by rewrite !orb_true_r.
Qed.

(** Without rules the text is well formed and defines a function that
    returns ['other']. *)
Lemma to_python_rule_empty (rule : PluralRule) :
  abstract rule = [] ->
  to_python python_relation (IsRule rule) = Ok [SUnpack; SReturn "other"].
Proof.
  intros Hnil. unfold to_python. cbn [PluralRule_parse]. rewrite bind_Ok.
  unfold python_source, python_parts. rewrite Hnil. reflexivity.
Qed.

Variable eval_condition : string -> operands -> result bool.

(** A first call compiles the rule: with a stored rule it raises. *)
Lemma PluralRule_call_nonempty (rule : PluralRule) (n : pynum) :
  abstract rule <> [] -> _func rule = None ->
  PluralRule_call python_relation eval_condition rule n =
  Raise (SyntaxError "'return' outside function").
Proof.
  intros Hne Hf. unfold PluralRule_call. rewrite Hf.
  by rewrite to_python_rule_nonempty.
Qed.

Lemma PluralRule_call_empty (rule : PluralRule) (n : pynum) :
  abstract rule = [] -> _func rule = None ->
  exists rule', PluralRule_call python_relation eval_condition rule n =
                Ok (Some "other", rule') /\ abstract rule' = [].
Proof.
  intros Hnil Hf. unfold PluralRule_call. rewrite Hf.
  rewrite to_python_rule_empty by done. cbn. eauto.
Qed.

End ToPython.

(** ** The constructor *)



Lemma occurs_twice_not_NoDup (key : string) (keys : list string) :
  occurs_twice key keys -> ~ NoDup keys.
Proof.
  unfold occurs_twice. intros Hlen Hnd.
  assert (NoDup (filter (fun k => k = key) keys)) as Hf by by apply NoDup_filter.
  destruct (filter (fun k => k = key) keys) as [|a [|b l]] eqn:E;
    [cbn in Hlen; lia .. |].
  assert (a = key) as ->.
  { assert (a ∈ filter (fun k => k = key) keys) as H by (rewrite E; left).
    by apply list_elem_of_filter in H as [? _]. }
  assert (b = key) as ->.
  { assert (b ∈ filter (fun k => k = key) keys) as H by (rewrite E; right; left).
    by apply list_elem_of_filter in H as [? _]. }
  apply NoDup_cons in Hf as [Hf _]. apply Hf. left.
Qed.


Lemma stored_entries_cons (key expr : string) (rest : list (string * string)) :
  stored_entries ((key, expr) :: rest) =
  match _Parser expr with
  | Ok (Some a) => [(key, a)]
  | _ => []
  end ++ stored_entries rest.
Proof.
  unfold stored_entries.
  change (omap stored_entry ((key, expr) :: rest))
    with (match stored_entry (key, expr) with
          | Some y => y :: omap stored_entry rest
          | None => omap stored_entry rest
          end).
  unfold stored_entry at 1. cbn [fst snd].
  destruct (_Parser expr) as [[a|]|]; reflexivity.
Qed.

(** What a run that returns has checked and stored. *)
Lemma init_loop_Ok (found : gset string) (acc abs : list (string * ast))
    (pairs : list (string * string)) :
  init_loop found acc pairs = Ok abs ->
  abs = acc ++ stored_entries pairs /\
  Forall parses pairs.*2 /\
  Forall (fun key => key ∈ _plural_tags) pairs.*1 /\
  NoDup pairs.*1 /\
  (forall key, key ∈ pairs.*1 -> key ∉ found).
Proof.
  revert found acc.
  induction pairs as [|[key expr] rest IH]; intros found acc Hok.
  - cbn in Hok. injection Hok as <-.
    rewrite app_nil_r. split_and!; try done; try constructor.
    intros key Hin. inversion Hin.
  - cbn [init_loop] in Hok.
    destruct (decide (key ∉ _plural_tags)) as [Hunk|Hknown];
      [by rewrite bool_decide_eq_true_2 in Hok|].
    rewrite bool_decide_eq_false_2 in Hok by done.
    destruct (decide (key ∈ found)) as [Hseen|Hnew];
      [by rewrite bool_decide_eq_true_2 in Hok|].
    rewrite bool_decide_eq_false_2 in Hok by done.
    destruct (_Parser expr) as [a|e] eqn:Hparse; [|discriminate].
    rewrite bind_Ok in Hok.
    apply IH in Hok as (-> & Hall & Htags & Hnd & Hfresh).
    cbn [fmap list_fmap fst snd]. split_and!.
    + rewrite stored_entries_cons, Hparse. destruct a as [a|]; [|done].
      by rewrite <- app_assoc.
    + constructor; [by exists a | done].
    + constructor; [by apply dec_stable | done].
    + apply NoDup_cons. split; [|done].
      intros Hin. apply (Hfresh key Hin).
      apply elem_of_union_l. by apply elem_of_singleton.
    + intros k Hk. apply elem_of_cons in Hk as [->|Hk]; [done|].
      intros Hf. apply (Hfresh k Hk). by apply elem_of_union_r.
Qed.

(** Conversely, known and distinct tags whose expressions all parse are
    accepted. *)
Lemma init_loop_accepts (found : gset string) (acc : list (string * ast))
    (pairs : list (string * string)) :
  Forall parses pairs.*2 ->
  Forall (fun key => key ∈ _plural_tags) pairs.*1 ->
  NoDup pairs.*1 ->
  (forall key, key ∈ pairs.*1 -> key ∉ found) ->
  init_loop found acc pairs = Ok (acc ++ stored_entries pairs).
Proof.
  revert found acc.
  induction pairs as [|[key expr] rest IH]; intros found acc Hall Htags Hnd Hfresh.
  - cbn. by rewrite app_nil_r.
  - cbn [fmap list_fmap fst snd] in *.
    apply Forall_cons in Hall as [[a Ha] Hall].
    apply Forall_cons in Htags as [Hkey Htags].
    apply NoDup_cons in Hnd as [Hnotin Hnd].
    cbn [init_loop].
    rewrite bool_decide_eq_false_2 by (intros H; by apply H).
    rewrite bool_decide_eq_false_2 by (apply Hfresh; left).
    rewrite Ha, bind_Ok.
    rewrite IH; try done.
    + rewrite stored_entries_cons, Ha. destruct a as [a|]; [|done].
      by rewrite <- app_assoc.
    + intros k Hk Hf. apply elem_of_union in Hf as [Hf|Hf].
      * apply elem_of_singleton in Hf as ->. done.
      * apply (Hfresh k); [by right | done].
Qed.

Lemma sorted_Permutation (l : list (string * string)) : sorted l ≡ₚ l.
Proof. apply merge_sort_Permutation. Qed.

Lemma PluralRule_init_Ok (rules : rules_input) (r : PluralRule) :
  PluralRule_init rules = Ok r ->
  abstract r = stored_entries (sorted (items rules)) /\
  _func r = None /\
  Forall parses (items rules).*2 /\
  Forall (fun key => key ∈ _plural_tags) (items rules).*1 /\
  NoDup (items rules).*1.
Proof.
  unfold PluralRule_init. intros H.
  apply bind_Ok_inv in H as (abs & Hloop & [= <-]).
  apply init_loop_Ok in Hloop as (-> & Hall & Htags & Hnd & _).
  pose proof (sorted_Permutation (items rules)) as Hperm.
  split_and!; try done.
  - by rewrite <- Hperm.
  - by rewrite <- Hperm.
  - by rewrite <- Hperm.
Qed.

Lemma elem_of_stored_entries (pairs : list (string * string)) (key : string) (a : ast) :
  (key, a) ∈ stored_entries pairs <->
  exists expr, (key, expr) ∈ pairs /\ _Parser expr = Ok (Some a).
Proof.
  unfold stored_entries. rewrite list_elem_of_omap. split.
  - intros ([k expr] & Hin & Hst). unfold stored_entry in Hst. cbn [fst snd] in Hst.
    destruct (_Parser expr) as [[a'|]|] eqn:E; simplify_eq. eauto.
  - intros (expr & Hin & Hp). exists (key, expr). split; [done|].
    unfold stored_entry. cbn [fst snd]. by rewrite Hp.
Qed.

(** The tags of a constructed rule: those given with an expression that
    has tokens. *)
Lemma PluralRule_tags_init (rules : rules_input) (r : PluralRule) (tag : string) :
  PluralRule_init rules = Ok r ->
  tag ∈ PluralRule_tags r <->
  exists expr a, (tag, expr) ∈ items rules /\ _Parser expr = Ok (Some a).
Proof.
  intros Hinit. apply PluralRule_init_Ok in Hinit as (Habs & _).
  unfold PluralRule_tags. rewrite elem_of_list_to_set, Habs, list_elem_of_fmap.
  split.
  - intros ([k a] & -> & Hin). apply elem_of_stored_entries in Hin as (expr & Hin & Hp).
    exists expr, a. split; [|done]. by rewrite <- (sorted_Permutation (items rules)).
  - intros (expr & a & Hin & Hp). exists (tag, a). split; [done|].
    apply elem_of_stored_entries. exists expr. split; [|done].
    by rewrite (sorted_Permutation (items rules)).
Qed.


Lemma NoDup_fst_functional {A B : Type} (l : list (A * B)) (k : A) (x y : B) :
  NoDup l.*1 -> (k, x) ∈ l -> (k, y) ∈ l -> x = y.
Proof.
  induction l as [|[k' z] l IH]; intros Hnd Hx Hy; [inversion Hx|].
  cbn in Hnd. apply NoDup_cons in Hnd as [Hk Hnd].
  apply elem_of_cons in Hx as [Hx|Hx]; apply elem_of_cons in Hy as [Hy|Hy].
  - congruence.
  - exfalso. apply Hk. injection Hx as <- <-.
    by apply (list_elem_of_fmap_2 fst l (k, y)).
  - exfalso. apply Hk. injection Hy as <- <-.
    by apply (list_elem_of_fmap_2 fst l (k, x)).
  - by apply IH.
Qed.







(** The messages on tags that [repr] does not write between single
    quotes, and the parser's error on a tag of the vocabulary. *)
Example PluralRule_init_messages :
  PluralRule_init (FromPairs [("a'b", "n is 1")]) =
    Raise (ValueError (String.concat "" ["unknown tag "; String double_quote "a'b";
                                         String double_quote ""])) /\
  PluralRule_init (FromPairs [("a\b", "n is 1")]) = Raise (ValueError "unknown tag 'a\\b'") /\
  PluralRule_init (FromPairs [("one", "n is"); ("zzz", "n is 1")]) =
    Raise (RuleError "Expected value, got end of rule").
Proof. split_and!; by vm_compute. Qed.

Example PluralRule_init_duplicate :
  PluralRule_init (FromPairs [("one", "n is 1"); ("two", "n is 2"); ("one", "n is 3")]) =
  Raise (ValueError "tag 'one' defined twice").
Proof. by vm_compute. Qed.

(** A mapping has each key once: only an unknown tag can be rejected. *)
Lemma FromMapping_NoDup (m : gmap string string) : NoDup (items (FromMapping m)).*1.
Proof. apply NoDup_fst_map_to_list. Qed.

(** ** Rules without tokens *)

Lemma scan_whitespace (text : string) (skip pos : nat) (prev : option ascii) :
  whitespace_only text -> scan skip pos prev text = Ok [].
Proof.
  unfold whitespace_only. revert skip pos prev.
  induction text as [|ch rest IH]; intros skip pos prev Hws; [reflexivity|].
  cbn [span_len String.length] in Hws.
  destruct (is_space ch) eqn:Hch; [|discriminate].
  injection Hws as Hws.
  cbn [scan]. destruct skip as [|skip]; [|by apply IH].
  unfold match_rule, match_run. cbn [span_len]. rewrite Hch.
  rewrite IH by done. reflexivity.
Qed.

Lemma tokenize_rule_whitespace (text : string) :
  whitespace_only text -> tokenize_rule text = Ok [].
Proof. apply scan_whitespace. Qed.

Lemma _Parser_whitespace (text : string) :
  whitespace_only text -> _Parser text = Ok None.
Proof. intros Hws. unfold _Parser. by rewrite tokenize_rule_whitespace. Qed.

(** A tag given with a rule without tokens is accepted and not stored. *)
Lemma PluralRule_init_skips_whitespace (rules : rules_input) (r : PluralRule)
    (tag text : string) :
  PluralRule_init rules = Ok r ->
  (tag, text) ∈ items rules ->
  whitespace_only text ->
  (tag ∉ PluralRule_tags r) /\ (forall a, (tag, a) ∉ abstract r).
Proof.
  intros Hinit Hin Hws.
  assert (tag ∉ PluralRule_tags r) as Htag.
  { rewrite (PluralRule_tags_init _ _ _ Hinit).
    intros (expr & a & Hin' & Hp).
    apply PluralRule_init_Ok in Hinit as (_ & _ & _ & _ & Hnd).
    rewrite (NoDup_fst_functional _ _ _ _ Hnd Hin' Hin) in Hp.
    rewrite _Parser_whitespace in Hp by done. discriminate. }
  split; [done|]. intros a Ha. apply Htag.
  unfold PluralRule_tags. apply elem_of_list_to_set.
  by apply (list_elem_of_fmap_2 fst _ (tag, a)).
Qed.

(** ** [tags] *)

Lemma PluralRule_tags_stored (r : PluralRule) (tag : string) :
  tag ∈ PluralRule_tags r <-> exists a, (tag, a) ∈ abstract r.
Proof.
  unfold PluralRule_tags. rewrite elem_of_list_to_set, list_elem_of_fmap. split.
  - intros ([k a] & -> & Hin). by exists a.
  - intros (a & Hin). by exists (tag, a).
Qed.

(** C9, as stated, fails: a rule set built with an explicit rule for
    ['other'] has ['other'] among its tags, as the docstring of [tags]
    says. *)
Lemma PluralRule_tags_explicit_other :
  exists r, PluralRule_init (FromMapping {["other" := "n is 1"]}) = Ok r /\
            "other" ∈ PluralRule_tags r.
Proof.
  eexists. split; [by vm_compute|].
  apply PluralRule_tags_stored. eexists. left.
Qed.

(** C9 (amended): the tags of a constructed rule set are exactly the tags
    given with an expression that has tokens; ['other'] is among them
    exactly when it was given such an expression. *)
Theorem PluralRule_tags_explicit (rules : rules_input) (r : PluralRule) :
  PluralRule_init rules = Ok r ->
  (forall tag, tag ∈ PluralRule_tags r <->
     exists expr a, (tag, expr) ∈ items rules /\ _Parser expr = Ok (Some a)) /\
  ("other" ∈ PluralRule_tags r <->
     exists expr a, ("other", expr) ∈ items rules /\ _Parser expr = Ok (Some a)).
Proof.
  intros Hinit. split; [intros tag|]; by apply PluralRule_tags_init.
Qed.

Lemma PluralRule_tags_explicit_witness :
  (forall tag, tag ∈ PluralRule_tags (mkPluralRule [("one", Is (Operand op_n) (Value 1))] None) <->
     exists expr a, (tag, expr) ∈ items (FromPairs [("one", "n is 1")]) /\
                    _Parser expr = Ok (Some a)) /\
  ("other" ∈ PluralRule_tags (mkPluralRule [("one", Is (Operand op_n) (Value 1))] None) <->
     exists expr a, ("other", expr) ∈ items (FromPairs [("one", "n is 1")]) /\
                    _Parser expr = Ok (Some a)).
Proof.
  apply (PluralRule_tags_explicit (FromPairs [("one", "n is 1")])).
  vm_compute. reflexivity.
Defined.

(** ** Classification *)

Section Classification.

Variable python_relation : relation_handler.
Variable eval_condition : string -> operands -> result bool.

Abbreviation classify := (PluralRule_call python_relation eval_condition).

(** A constructed rule set with a stored rule cannot classify. *)
Lemma classify_constructed (rules : rules_input) (r : PluralRule) (n : pynum) :
  PluralRule_init rules = Ok r -> abstract r <> [] ->
  classify r n = Raise (SyntaxError "'return' outside function").
Proof.
  intros Hinit Hne. apply PluralRule_call_nonempty; [done|].
  by apply PluralRule_init_Ok in Hinit as (_ & ? & _).
Qed.

(** C1: on the rule set of the claim's example, [classify(11)],
    [classify(15)] and [classify(20)] raise where the claim (and the
    docstring of [to_python]) give ['one'], ['few'] and ['other']. *)
Theorem classify_example_raises :
  exists r,
    PluralRule_init
      (FromMapping {["one" := "n in 1,11"; "few" := "n in 3..10,13..19"]}) = Ok r /\
    abstract r =
      [("few", Relation false m_in (Operand op_n) [RRange 3 10; RRange 13 19]);
       ("one", Relation false m_in (Operand op_n) [RSingle 1; RSingle 11])] /\
    classify r (PInt 11) = Raise (SyntaxError "'return' outside function") /\
    classify r (PInt 15) = Raise (SyntaxError "'return' outside function") /\
    classify r (PInt 20) = Raise (SyntaxError "'return' outside function").
Proof.
  eexists. split; [by vm_compute|]. split; [reflexivity|].
  split_and!; by apply PluralRule_call_nonempty.
Qed.

Example classify_one_raises :
  exists r,
    PluralRule_init (FromMapping {["one" := "n is 1"]}) = Ok r /\
    classify r (PInt 1) = Raise (SyntaxError "'return' outside function").
Proof.
  eexists. split; [by vm_compute|]. by apply PluralRule_call_nonempty.
Qed.

(** When every tag was given without tokens nothing is stored, and
    every input is classified as ['other']. *)
Lemma classify_nothing_stored (rules : rules_input) (r : PluralRule) (n : pynum) :
  PluralRule_init rules = Ok r ->
  Forall whitespace_only (items rules).*2 ->
  exists r', classify r n = Ok (Some "other", r').
Proof.
  intros Hinit Hws.
  assert (abstract r = []) as Hnil.
  { destruct (abstract r) as [|[tag a] rest] eqn:E; [done|]. exfalso.
    assert ((tag, a) ∈ abstract r) as Hin by (rewrite E; left).
    pose proof Hinit as Hinit'.
    apply PluralRule_init_Ok in Hinit' as (Habs & _).
    rewrite Habs in Hin. apply elem_of_stored_entries in Hin as (expr & Hin & Hp).
    rewrite (sorted_Permutation (items rules)) in Hin.
    assert (whitespace_only expr) as Hexpr.
    { rewrite Forall_forall in Hws. apply Hws.
      by apply (list_elem_of_fmap_2 snd _ (tag, expr)). }
    rewrite _Parser_whitespace in Hp by done. discriminate. }
  destruct (PluralRule_call_empty python_relation eval_condition r n Hnil)
    as (r' & Hcall & _).
  { by apply PluralRule_init_Ok in Hinit as (_ & ? & _). }
  by exists r'.
Qed.

(** C7: the tag given with a blank expression is accepted and absent
    from [tags]; next to a stored rule, classification of an input that
    no rule matches raises instead of falling through to ['other']. *)
Theorem classify_blank_rule_raises :
  tokenize_rule "  " = Ok [] /\
  _Parser "  " = Ok None /\
  exists r,
    PluralRule_init (FromMapping {["one" := "  "; "two" := "n is 2"]}) = Ok r /\
    abstract r = [("two", Is (Operand op_n) (Value 2))] /\
    ("one" ∉ PluralRule_tags r) /\
    classify r (PInt 5) = Raise (SyntaxError "'return' outside function").
Proof.
  split; [reflexivity|]. split; [reflexivity|].
  eexists. split; [by vm_compute|]. split; [reflexivity|]. split.
  - rewrite PluralRule_tags_stored. intros (a & Hin).
    apply list_elem_of_singleton in Hin. discriminate.
  - by apply PluralRule_call_nonempty.
Qed.

End Classification.

(** ** [to_gettext] *)

Section Gettext.

Variable gettext_relation : relation_handler.

Abbreviation gettext_compiler := (_GettextCompiler gettext_relation).

(** The operands as the gettext backend renders them. *)
Lemma gettext_operands :
  compile gettext_compiler (Operand op_n) = "n" /\
  compile gettext_compiler (Operand op_i) = "n" /\
  compile gettext_compiler (Operand op_v) = "0" /\
  compile gettext_compiler (Operand op_w) = "0" /\
  compile gettext_compiler (Operand op_f) = "0" /\
  compile gettext_compiler (Operand op_t) = "0".
Proof. by repeat split. Qed.

Lemma gettext_parts_length (rule : PluralRule) :
  length (gettext_parts gettext_relation rule) = S (length (abstract rule)).
Proof.
  unfold gettext_parts. rewrite length_app, length_imap. cbn. lia.
Qed.

(** Each condition is wrapped in parentheses of its own, on top of
    those its template already has. *)
Lemma gettext_parts_lookup (rule : PluralRule) (idx : nat) (tag : string) (a : ast) :
  abstract rule !! idx = Some (tag, a) ->
  gettext_parts gettext_relation rule !! idx =
  Some ("(" +:+ compile gettext_compiler a +:+ ") ? " +:+ str_nat idx +:+ " : ").
Proof.
  intros Hidx. unfold gettext_parts.
  rewrite lookup_app_l by (rewrite length_imap; by eapply lookup_lt_Some).
  rewrite list_lookup_imap, Hidx. reflexivity.
Qed.

(** C5: on the docstring example the conditions come out with doubled
    parentheses, so the text differs from the one the docstring and the
    claim give. *)
Theorem to_gettext_example_parentheses :
  to_gettext gettext_relation
    (IsRules (FromMapping {["one" := "n is 1"; "two" := "n is 2"]})) =
  Ok "nplurals=3; plural=(((n == 1)) ? 0 : ((n == 2)) ? 1 : 2);" /\
  to_gettext gettext_relation
    (IsRules (FromMapping {["one" := "n is 1"; "two" := "n is 2"]})) <>
  Ok "nplurals=3; plural=((n == 1) ? 0 : (n == 2) ? 1 : 2);".
Proof.
  assert (to_gettext gettext_relation
            (IsRules (FromMapping {["one" := "n is 1"; "two" := "n is 2"]})) =
          Ok "nplurals=3; plural=(((n == 1)) ? 0 : ((n == 2)) ? 1 : 2);") as H
    by by vm_compute.
  split; [done|]. rewrite H. discriminate.
Qed.

End Gettext.

(** ** [PluralRule.parse] *)

Lemma Objects_new_spec (h : Objects.store) (rules : rules_input) :
  match PluralRule_init rules with
  | Ok r =>
      Objects.new h rules = Ok (length h, h ++ [r]) /\
      Objects.deref h (length h) = None /\
      Objects.deref (h ++ [r]) (length h) = Some r /\
      (forall a r', Objects.deref h a = Some r' -> Objects.deref (h ++ [r]) a = Some r')
  | Raise e => Objects.new h rules = Raise e
  end.
Proof.
  unfold Objects.new, Objects.deref.
  destruct (PluralRule_init rules) as [r|e]; [|reflexivity].
  split_and!.
  - reflexivity.
  - by apply lookup_ge_None_2.
  - by apply (list_lookup_middle h [] r).
  - intros a r' Ha. by apply (lookup_app_l_Some h [r]).
Qed.

(** C10: [parse] of a [PluralRule] returns that very object and leaves
    the store as it is, so parsing the result of a parse changes nothing;
    on a mapping or on pairs it is the constructor. *)
Theorem PluralRule_parse_identity :
  (forall h a, Objects.parse h (Objects.VRule a) = Ok (a, h)) /\
  (forall h x,
     (Objects.parse h x ≫= fun p => Objects.parse p.2 (Objects.VRule p.1)) =
     Objects.parse h x) /\
  (forall h m, Objects.parse h (Objects.VMapping m) = Objects.new h (FromMapping m)) /\
  (forall h l, Objects.parse h (Objects.VPairs l) = Objects.new h (FromPairs l)).
Proof.
  split_and!; try reflexivity.
  intros h x. destruct (Objects.parse h x) as [[a h']|e]; reflexivity.
Qed.

(** On values, [parse] of a rule is that rule. *)
Lemma PluralRule_parse_rule (r : PluralRule) : PluralRule_parse (IsRule r) = Ok r.
Proof. reflexivity. Qed.

Example Objects_parse_twice :
  exists a h,
    Objects.parse [] (Objects.VPairs [("one", "n is 1")]) = Ok (a, h) /\
    Objects.parse h (Objects.VRule a) = Ok (a, h) /\
    Objects.deref h a = Some (mkPluralRule [("one", Is (Operand op_n) (Value 1))] None).
Proof. eexists _, _. split; [by vm_compute|]. by split. Qed.

(** ** [extract_operands] *)

Example extract_operands_1_30 :
  extract_operands (PDec (mkDecimal false 130 (-2))) =
  mkOperands (mkDecimal false 130 (-2)) 1 2 1 30 3 0 0.
Proof. reflexivity. Qed.

Example extract_operands_float_1_5 :
  extract_operands (PFloat (mkDecimal true 15 (-1))) =
  mkOperands (mkDecimal false 15 (-1)) 1 1 1 5 5 0 0.
Proof. reflexivity. Qed.



(** ** Canonical text *)

Lemma spell_cons (sp : bool) (x : lexeme) (l : list (bool * lexeme)) :
  spell ((sp, x) :: l) = lead sp +:+ (lexeme_kind x).2 +:+ spell l.
Proof. reflexivity. Qed.

Lemma spell_app (l1 l2 : list (bool * lexeme)) :
  spell (l1 ++ l2) = spell l1 +:+ spell l2.
Proof.
  induction l1 as [|[sp x] l1 IH]; [reflexivity|].
  rewrite <- app_comm_cons, !spell_cons, IH. by rewrite !append_assoc.
Qed.

Lemma unicode_operand (o : operand) :
  compile _UnicodeCompiler (Operand o) = operand_name o.
Proof. by destruct o. Qed.

Lemma unicode_binary (l r : ast) :
  compile _UnicodeCompiler (Mod l r) =
    compile _UnicodeCompiler l +:+ " mod " +:+ compile _UnicodeCompiler r /\
  compile _UnicodeCompiler (Is l r) =
    compile _UnicodeCompiler l +:+ " is " +:+ compile _UnicodeCompiler r /\
  compile _UnicodeCompiler (IsNot l r) =
    compile _UnicodeCompiler l +:+ " is not " +:+ compile _UnicodeCompiler r /\
  compile _UnicodeCompiler (And l r) =
    compile _UnicodeCompiler l +:+ " and " +:+ compile _UnicodeCompiler r /\
  compile _UnicodeCompiler (Or l r) =
    compile _UnicodeCompiler l +:+ " or " +:+ compile _UnicodeCompiler r.
Proof.
  cbn [compile]. cbn -[String.append compile].
  rewrite !append_nil_r. by repeat split.
Qed.

Lemma spell_range (sp : bool) (r : range) :
  spell (range_layout sp r) = lead sp +:+ render_range r.
Proof.
  destruct r as [k|lo hi]; cbn [range_layout render_range]; rewrite !spell_cons.
  - cbn [spell lexeme_kind snd]. by rewrite append_nil_r.
  - cbn [spell lexeme_kind snd lead]. by rewrite append_nil_r.
Qed.

Lemma spell_ranges (sp : bool) (rl : list range) :
  rl <> [] ->
  spell (ranges_layout sp rl) = lead sp +:+ join "," (render_range <$> rl).
Proof.
  revert sp. induction rl as [|r rl IH]; intros sp Hne; [done|].
  cbn [ranges_layout]. rewrite spell_app, spell_range.
  destruct rl as [|r' rl].
  - cbn [spell fmap list_fmap join]. by rewrite append_nil_r.
  - rewrite spell_cons, IH by done.
    cbn [fmap list_fmap join lead lexeme_kind snd].
    by rewrite !append_assoc.
Qed.

Lemma spell_expr (sp : bool) (e : ast) :
  is_expr e ->
  spell (ast_layout sp e) = lead sp +:+ compile _UnicodeCompiler e.
Proof.
  intros [o|o k].
  - rewrite unicode_operand. cbn [ast_layout spell lexeme_kind snd].
    by rewrite append_nil_r.
  - destruct (unicode_binary (Operand o) (Value k)) as (-> & _).
    rewrite unicode_operand.
    cbn [ast_layout app spell lexeme_kind snd compile compile_value _UnicodeCompiler _Compiler].
    by rewrite append_nil_r.
Qed.

Lemma spell_relation (sp : bool) (r : ast) :
  is_relation r ->
  spell (ast_layout sp r) = lead sp +:+ compile _UnicodeCompiler r.
Proof.
  intros [e k He|e k He|negated m e rl He Hrl].
  - destruct (unicode_binary e (Value k)) as (_ & -> & _).
    cbn [ast_layout]. rewrite spell_app, spell_expr by done.
    cbn [spell lexeme_kind snd compile compile_value _UnicodeCompiler _Compiler].
    by rewrite append_nil_r, !append_assoc.
  - destruct (unicode_binary e (Value k)) as (_ & _ & -> & _).
    cbn [ast_layout]. rewrite spell_app, spell_expr by done.
    cbn [spell lexeme_kind snd compile compile_value _UnicodeCompiler _Compiler].
    by rewrite append_nil_r, !append_assoc.
  - cbn [ast_layout]. rewrite !spell_app, spell_expr by done.
    rewrite spell_cons, spell_ranges by done.
    change (compile _UnicodeCompiler (Relation negated m e rl))
      with (unicode_relation negated m (compile _UnicodeCompiler e) rl).
    unfold unicode_relation. destruct negated; cbn [spell lexeme_kind snd lead];
      by rewrite !append_assoc.
Qed.

Lemma spell_and_condition (sp : bool) (a : ast) :
  is_and_condition a ->
  spell (ast_layout sp a) = lead sp +:+ compile _UnicodeCompiler a.
Proof.
  induction 1 as [r Hr|a r Ha IH Hr]; [by apply spell_relation|].
  destruct (unicode_binary a r) as (_ & _ & _ & -> & _).
  cbn [ast_layout]. rewrite spell_app, IH, spell_cons, spell_relation by done.
  cbn [lexeme_kind snd lead]. by rewrite !append_assoc.
Qed.

Lemma spell_condition (sp : bool) (c : ast) :
  is_condition c ->
  spell (ast_layout sp c) = lead sp +:+ compile _UnicodeCompiler c.
Proof.
  induction 1 as [a Ha|c a Hc IH Ha]; [by apply spell_and_condition|].
  destruct (unicode_binary c a) as (_ & _ & _ & _ & ->).
  cbn [ast_layout]. rewrite spell_app, IH, spell_cons, spell_and_condition by done.
  cbn [lexeme_kind snd lead]. by rewrite !append_assoc.
Qed.

(** ** Scanning a spelled layout *)

Lemma scan_skip (u tail : string) (pos : nat) (prev : option ascii) :
  scan (String.length u) pos prev (u +:+ tail) =
  scan 0 (pos + String.length u) (last_of prev u) tail.
Proof.
  revert pos prev. induction u as [|c u IH]; intros pos prev.
  - cbn [String.length last_of]. rewrite Nat.add_0_r. reflexivity.
  - rewrite append_cons. cbn [String.length scan last_of].
    rewrite IH. f_equal. lia.
Qed.

Lemma take_chars_append (u tail : string) :
  take_chars (String.length u) (u +:+ tail) = u.
Proof.
  induction u as [|c u IH]; [by destruct tail|].
  rewrite append_cons. cbn [String.length take_chars]. by rewrite IH.
Qed.

(** One step of the loop, at a position where a rule matches [u]. *)
Lemma scan_match (u tail : string) (ty : option toktype) (pos : nat) (prev : option ascii) :
  u <> "" ->
  match_rule prev (u +:+ tail) = Some (ty, String.length u) ->
  scan 0 pos prev (u +:+ tail) =
  ts ← scan 0 (pos + String.length u) (last_of prev u) tail; Ok (emit ty u pos ts).
Proof.
  intros Hne Hmatch. destruct u as [|c u]; [done|].
  pose proof (take_chars_append (String c u) tail) as Htake.
  rewrite append_cons in *. cbn [scan]. rewrite Hmatch.
  cbn [String.length Nat.pred] in *.
  rewrite scan_skip. cbn [last_of].
  replace (S pos + String.length u)%nat with (pos + S (String.length u))%nat by lia.
  destruct (scan 0 _ _ tail) as [ts|e]; [|reflexivity].
  rewrite !bind_Ok. destruct ty; cbn [emit]; [|reflexivity].
  by rewrite Htake.
Qed.

Lemma span_len_stop (p : ascii -> bool) (s : string) :
  starts_with p s = false -> span_len p s = O.
Proof. destruct s as [|c s]; [done|]. cbn. by intros ->. Qed.

Lemma span_len_append (p : ascii -> bool) (u tail : string) :
  span_len p u = String.length u ->
  starts_with p tail = false ->
  span_len p (u +:+ tail) = String.length u.
Proof.
  intros Hu Htail. induction u as [|c u IH]; [by apply span_len_stop|].
  rewrite append_cons. cbn [span_len String.length] in *.
  destruct (p c); [|done]. injection Hu as Hu. by rewrite IH.
Qed.

(** *** Character classes *)

Lemma digit_not_space (c : ascii) : is_digit c = true -> is_space c = false.
Proof.
  destruct c as [[] [] [] [] [] [] [] []]; intros H; vm_compute in H;
    try discriminate H; reflexivity.
Qed.

Lemma digit_not_dot (c : ascii) : is_digit c = true -> Ascii.eqb "." c = false.
Proof.
  destruct c as [[] [] [] [] [] [] [] []]; intros H; vm_compute in H;
    try discriminate H; reflexivity.
Qed.

Lemma digit_no_word (c : ascii) (s : string) :
  is_digit c = true -> List.find (word_matches (String c s)) word_alternatives = None.
Proof.
  destruct c as [[] [] [] [] [] [] [] []]; intros H; vm_compute in H;
    try discriminate H; reflexivity.
Qed.

Lemma string_of_uint_digits (d : Decimal.uint) :
  span_len is_digit (NilEmpty.string_of_uint d) =
  String.length (NilEmpty.string_of_uint d).
Proof.
  induction d as [|d IH|d IH|d IH|d IH|d IH|d IH|d IH|d IH|d IH|d IH];
    [reflexivity | cbn [NilEmpty.string_of_uint span_len String.length];
                   change (is_digit _) with true; cbv iota; by rewrite IH ..].
Qed.

Lemma str_N_digits (k : N) :
  span_len is_digit (str_N k) = String.length (str_N k).
Proof. apply string_of_uint_digits. Qed.

Lemma str_N_nonempty (k : N) : str_N k <> "".
Proof.
  unfold str_N. destruct k as [|p]; [done|].
  cbn [N.to_uint]. pose proof (Unsigned.to_uint_nonnil p) as Hnil.
  by destruct (Pos.to_uint p).
Qed.

Lemma int_of_digits_str_N (k : N) : int_of_digits (str_N k) = Some k.
Proof.
  unfold int_of_digits. pose proof (str_N_nonempty k) as Hne.
  destruct (str_N k) eqn:E; [done|]. rewrite <- E. unfold str_N.
  rewrite NilEmpty.usu. cbn [fmap option_fmap option_map].
  by rewrite DecimalN.Unsigned.of_to.
Qed.

Lemma str_N_inj (k1 k2 : N) : str_N k1 = str_N k2 -> k1 = k2.
Proof.
  intros H. apply (f_equal int_of_digits) in H.
  rewrite !int_of_digits_str_N in H. by injection H.
Qed.

(** *** The rule that matches each lexeme *)

Lemma match_rule_value (prev : option ascii) (u tail : string) :
  u <> "" ->
  span_len is_digit u = String.length u ->
  starts_with is_digit tail = false ->
  match_rule prev (u +:+ tail) = Some (Some TValue, String.length u).
Proof.
  intros Hne Hu Htail.
  pose proof (span_len_append is_digit u tail Hu Htail) as Hspan.
  destruct u as [|c u]; [done|]. rewrite append_cons in *.
  assert (is_digit c = true) as Hc.
  { cbn in Hu. by destruct (is_digit c). }
  unfold match_rule, match_run, match_word.
  cbn [span_len] in *. rewrite (digit_not_space c Hc), Hc in *.
  rewrite digit_no_word by done.
  destruct (boundary_before prev); cbn [fmap option_fmap option_map];
    by rewrite <- Hspan.
Qed.

Lemma match_rule_comma (prev : option ascii) (tail : string) :
  match_rule prev ("," +:+ tail) = Some (Some TSymbol, 1%nat).
Proof. unfold match_rule, match_word. by destruct (boundary_before prev). Qed.

Lemma match_rule_dots (prev : option ascii) (tail : string) :
  starts_with (Ascii.eqb ".") tail = false ->
  match_rule prev (".." +:+ tail) = Some (Some TEllipsis, 2%nat).
Proof.
  intros Htail. unfold match_rule, match_word.
  assert (match_ellipsis (".." +:+ tail) = Some 2%nat) as ->.
  { destruct tail as [|c tail]; [reflexivity|].
    change (Ascii.eqb "." c = false) in Htail.
    unfold match_ellipsis.
    change (".." +:+ String c tail) with (String "." (String "." (String c tail))).
    cbn [List.find is_prefix]. rewrite !Ascii.eqb_refl, Htail. reflexivity. }
  by destruct (boundary_before prev).
Qed.

Lemma match_rule_space (prev : option ascii) (tail : string) :
  starts_with is_space tail = false ->
  match_rule prev (" " +:+ tail) = Some (None, 1%nat).
Proof.
  intros Htail. unfold match_rule, match_run.
  change (" " +:+ tail) with (String " " tail). cbn [span_len].
  change (is_space " ") with true. cbv iota.
  by rewrite span_len_stop.
Qed.

Lemma match_rule_word (prev : option ascii) (w tail : string) :
  w ∈ word_alternatives ->
  boundary_before prev = true ->
  tail = "" \/ (exists t, tail = String " " t) ->
  match_rule prev (w +:+ tail) = Some (Some TWord, String.length w).
Proof.
  intros Hw Hprev Htail. unfold match_rule, match_word. rewrite Hprev.
  unfold word_alternatives, _VARS in Hw. cbn [app] in Hw.
  destruct Htail as [->|[t ->]];
    repeat (apply elem_of_cons in Hw as [->|Hw]; [reflexivity|]);
    inversion Hw.
Qed.

(** *** The scan of a well-spaced layout *)

Lemma str_N_head (k : N) :
  exists c u, str_N k = String c u /\ is_digit c = true.
Proof.
  pose proof (str_N_nonempty k) as Hne. pose proof (str_N_digits k) as Hd.
  destruct (str_N k) as [|c u]; [done|]. exists c, u. split; [done|].
  cbn in Hd. by destruct (is_digit c).
Qed.

Lemma lexeme_text_nonspace (x : lexeme) (tail : string) :
  is_word_lexeme x ->
  starts_with is_space ((lexeme_kind x).2 +:+ tail) = false.
Proof.
  destruct x as [w|k| |]; cbn [is_word_lexeme lexeme_kind snd]; intros Hx.
  - unfold word_alternatives, _VARS in Hx. cbn [app] in Hx.
    repeat (apply elem_of_cons in Hx as [->|Hx]; [reflexivity|]).
    inversion Hx.
  - destruct (str_N_head k) as (c & u & -> & Hc).
    rewrite append_cons. cbn [starts_with]. by apply digit_not_space.
  - reflexivity.
  - reflexivity.
Qed.

Lemma scanned_kinds_step (ty : toktype) (u : string) (pos : nat)
    (r : result (list token)) (ks : list (toktype * string)) :
  scanned_kinds r = Some ks ->
  scanned_kinds (ts ← r; Ok (emit (Some ty) u pos ts)) = Some ((ty, u) :: ks).
Proof.
  destruct r as [ts|e]; [|done]. cbn. intros [= <-]. reflexivity.
Qed.

Lemma scanned_kinds_skip (u : string) (pos : nat)
    (r : result (list token)) (ks : list (toktype * string)) :
  scanned_kinds r = Some ks ->
  scanned_kinds (ts ← r; Ok (emit None u pos ts)) = Some ks.
Proof. destruct r as [ts|e]; [|done]. cbn. by intros [= <-]. Qed.

Lemma scan_spell (l : list (bool * lexeme)) :
  well_spaced l ->
  forall pos prev, first_ok prev l ->
  scanned_kinds (scan 0 pos prev (spell l)) = Some (layout_kinds l).
Proof.
  induction l as [|[sp x] rest IH]; intros Hws pos prev Hfirst; [reflexivity|].
  cbn [well_spaced] in Hws. destruct Hws as (Hx & Hglue & Hrest).
  specialize (IH Hrest).
  (* after the lexeme: the rest, with no word glued to it *)
  assert (forall prev', first_ok prev' rest) as Hnext.
  { intros prev'. destruct rest as [|[[] y] rest']; try done.
    destruct y; try done. by destruct x. }
  assert (forall pos0 prev0,
            (match x with LWord _ => boundary_before prev0 = true | _ => True end) ->
            scanned_kinds (scan 0 pos0 prev0 ((lexeme_kind x).2 +:+ spell rest)) =
            Some (lexeme_kind x :: layout_kinds rest)) as Hlex.
  { intros pos0 prev0 Hb0.
    destruct x as [w|k| |]; cbn [lexeme_kind snd is_word_lexeme] in *.
    - rewrite scan_match with (ty := Some TWord).
      + apply scanned_kinds_step, IH, Hnext.
      + intros ->. unfold word_alternatives, _VARS in Hx. cbn [app] in Hx.
        repeat (apply elem_of_cons in Hx as [Hx|Hx]; [discriminate Hx|]).
        inversion Hx.
      + apply match_rule_word; [done | done |].
        destruct rest as [|[[] y] rest']; [by left | right; by eexists | done].
    - rewrite scan_match with (ty := Some TValue).
      + apply scanned_kinds_step, IH, Hnext.
      + apply str_N_nonempty.
      + apply match_rule_value; [apply str_N_nonempty | apply str_N_digits |].
        destruct rest as [|[[] y] rest']; [done | done |].
        by destruct y.
    - rewrite scan_match with (ty := Some TSymbol) (u := ",").
      + apply scanned_kinds_step, IH, Hnext.
      + done.
      + apply match_rule_comma.
    - rewrite scan_match with (ty := Some TEllipsis) (u := "..").
      + apply scanned_kinds_step, IH, Hnext.
      + done.
      + apply match_rule_dots.
        destruct rest as [|[[] y] rest']; [done | done |].
        destruct y as [w|k| |]; try done.
        cbn [spell lexeme_kind snd].
        destruct (str_N_head k) as (c & u & -> & Hc).
        cbn [String.append starts_with]. by apply digit_not_dot. }
  rewrite spell_cons. destruct sp; cbn [lead].
  - rewrite scan_match with (ty := None) (u := " ").
    + apply scanned_kinds_skip, Hlex. by destruct x.
    + done.
    + apply match_rule_space. by apply lexeme_text_nonspace.
  - apply Hlex. by destruct x.
Qed.

(** *** Canonical layouts are well spaced *)

Lemma well_spaced_app (l1 l2 : list (bool * lexeme)) :
  well_spaced l1 -> well_spaced l2 -> spaced_head l2 -> well_spaced (l1 ++ l2).
Proof.
  intros H1 H2 Hhead. induction l1 as [|[sp x] l1 IH]; [done|].
  cbn [well_spaced] in H1. destruct H1 as (Hx & Hglue & H1).
  rewrite <- app_comm_cons. cbn [well_spaced]. split_and!; [done| |by apply IH].
  destruct l1 as [|[sp' y] l1]; [|done].
  cbn [app]. by destruct l2 as [|[[] y] l2].
Qed.

Lemma spaced_head_app (l1 l2 : list (bool * lexeme)) :
  spaced_head l1 -> spaced_head l2 -> spaced_head (l1 ++ l2).
Proof. by destruct l1 as [|[[] x] l1]. Qed.

Lemma well_spaced_word (w : string) (l : list (bool * lexeme)) :
  w ∈ word_alternatives -> spaced_head l -> well_spaced l ->
  well_spaced ((true, LWord w) :: l).
Proof.
  intros Hw Hhead Hl. cbn [well_spaced is_word_lexeme].
  split_and!; [done| |done]. by destruct l as [|[[] y] l].
Qed.

Lemma word_alternatives_elem (w : string) :
  bool_decide (w ∈ word_alternatives) = true -> w ∈ word_alternatives.
Proof. apply bool_decide_eq_true_1. Qed.

Lemma operand_name_word (o : operand) : operand_name o ∈ word_alternatives.
Proof. destruct o; by apply word_alternatives_elem. Qed.

Lemma method_name_word (m : method) : method_name m ∈ word_alternatives.
Proof. destruct m; by apply word_alternatives_elem. Qed.

Lemma spaced_head_ranges (rl : list range) : spaced_head (ranges_layout true rl).
Proof. by destruct rl as [|[k|lo hi] rl]. Qed.

Lemma well_spaced_ranges (sp : bool) (rl : list range) :
  well_spaced (ranges_layout sp rl).
Proof.
  revert sp. induction rl as [|r rl IH]; intros sp; [done|].
  cbn [ranges_layout]. specialize (IH false).
  destruct rl as [|r' rl].
  - rewrite app_nil_r. by destruct r.
  - set (more := ranges_layout false (r' :: rl)) in *.
    assert (well_spaced ((false, LComma) :: more)) as Hc.
    { split_and!; [done| |done]. subst more. by destruct r'. }
    destruct r as [k|lo hi]; cbn [range_layout app].
    + by split_and!.
    + split_and!; [done|done|]. split_and!; [done|done|]. by split_and!.
Qed.

Lemma spaced_head_ast (a : ast) : spaced_head (ast_layout true a).
Proof.
  induction a as [k|o|l IHl r IHr|l IHl r IHr|l IHl r IHr|negated m e IHe rl|
                  l IHl r IHr|l IHl r IHr|x IHx];
    cbn [ast_layout]; try done; apply spaced_head_app; try done.
  by destruct negated.
Qed.

Lemma well_spaced_expr (sp : bool) (e : ast) :
  is_expr e -> well_spaced (ast_layout sp e).
Proof.
  intros [o|o k]; cbn [ast_layout app well_spaced is_word_lexeme].
  - split_and!; [apply operand_name_word | done | done].
  - split_and!; try done; [apply operand_name_word | by apply word_alternatives_elem].
Qed.

Lemma well_spaced_relation (sp : bool) (r : ast) :
  is_relation r -> well_spaced (ast_layout sp r).
Proof.
  intros [e k He|e k He|negated m e rl He Hrl]; cbn [ast_layout].
  - apply well_spaced_app; [by apply well_spaced_expr| |done].
    by apply well_spaced_word; [apply word_alternatives_elem|..].
  - apply well_spaced_app; [by apply well_spaced_expr| |done].
    apply well_spaced_word; [by apply word_alternatives_elem|done|].
    by apply well_spaced_word; [apply word_alternatives_elem|..].
  - apply well_spaced_app; [by apply well_spaced_expr| |by destruct negated].
    assert (well_spaced ((true, LWord (method_name m)) :: ranges_layout true rl)) as Hm.
    { apply well_spaced_word;
        [apply method_name_word | apply spaced_head_ranges | apply well_spaced_ranges]. }
    destruct negated; [|done].
    cbn [app]. by apply well_spaced_word; [apply word_alternatives_elem|..].
Qed.

Lemma well_spaced_and_condition (sp : bool) (a : ast) :
  is_and_condition a -> well_spaced (ast_layout sp a).
Proof.
  induction 1 as [r Hr|a r Ha IH Hr]; [by apply well_spaced_relation|].
  cbn [ast_layout]. apply well_spaced_app; [done| |done].
  apply well_spaced_word;
    [by apply word_alternatives_elem | apply spaced_head_ast |
     by apply well_spaced_relation].
Qed.

Lemma well_spaced_condition (sp : bool) (c : ast) :
  is_condition c -> well_spaced (ast_layout sp c).
Proof.
  induction 1 as [a Ha|c a Hc IH Ha]; [by apply well_spaced_and_condition|].
  cbn [ast_layout]. apply well_spaced_app; [done| |done].
  apply well_spaced_word;
    [by apply word_alternatives_elem | apply spaced_head_ast |
     by apply well_spaced_and_condition].
Qed.

(** The tokens of the canonical text of a tree of the grammar. *)
Lemma tokenize_canonical (c : ast) :
  is_condition c ->
  scanned_kinds (tokenize_rule (compile _UnicodeCompiler c)) =
  Some (layout_kinds (ast_layout false c)).
Proof.
  intros Hc. unfold tokenize_rule.
  rewrite <- (append_nil_l (compile _UnicodeCompiler c)).
  change "" with (lead false) at 1.
  rewrite <- spell_condition by done.
  apply scan_spell; [by apply well_spaced_condition|].
  by destruct (ast_layout false c) as [|[[] []] l].
Qed.

(** ** Parsing the tokens of a canonical text *)

Lemma spelled_nil (ts : list token) : spelled ts [] -> ts = [].
Proof. unfold spelled. cbn. apply fmap_nil_inv. Qed.

Lemma spelled_cons (ts : list token) (sp : bool) (x : lexeme) (l : list (bool * lexeme)) :
  spelled ts ((sp, x) :: l) ->
  exists pos ts', ts = mkToken (lexeme_kind x).1 (lexeme_kind x).2 pos :: ts' /\ spelled ts' l.
Proof.
  unfold spelled, layout_kinds. cbn [fmap list_fmap snd]. intros H.
  apply fmap_cons_inv in H as ([ty tx pos] & ts' & Hk & Hl & ->).
  unfold token_kind in Hk. cbn [tok_type tok_text] in Hk. rewrite Hk.
  by exists pos, ts'.
Qed.

Lemma spelled_app (ts : list token) (l1 l2 : list (bool * lexeme)) :
  spelled ts (l1 ++ l2) ->
  exists ts1 ts2, ts = ts1 ++ ts2 /\ spelled ts1 l1 /\ spelled ts2 l2.
Proof.
  unfold spelled, layout_kinds. rewrite fmap_app. intros H.
  apply fmap_app_inv in H as (ts1 & ts2 & H1 & H2 & ->). by exists ts1, ts2.
Qed.

Lemma spelled_length (ts : list token) (l : list (bool * lexeme)) :
  spelled ts l -> length ts = length l.
Proof.
  unfold spelled, layout_kinds. intros H. apply (f_equal length) in H.
  by rewrite !length_fmap in H.
Qed.

Lemma operand_of_name_name (o : operand) : operand_of_name (operand_name o) = Some o.
Proof. by destruct o. Qed.

Lemma parse_value_spelled (k : N) (pos : nat) (rest : list token) :
  parse_value (mkToken TValue (str_N k) pos :: rest) = Ok (k, rest).
Proof. unfold parse_value. cbn [tok_type tok_text]. by rewrite int_of_digits_str_N. Qed.

Lemma parse_expr_spelled (e : ast) (sp : bool) (ts rest : list token) :
  is_expr e -> spelled ts (ast_layout sp e) -> no_mod rest ->
  parse_expr (ts ++ rest) = Ok (e, rest).
Proof.
  intros [o|o k] Hts [Hmod Hpct]; cbn [ast_layout app] in Hts.
  - apply spelled_cons in Hts as (pos & ts' & -> & Hts).
    apply spelled_nil in Hts as ->. cbn [app lexeme_kind fst snd].
    unfold parse_expr. cbn [tok_type tok_text].
    by rewrite operand_of_name_name, Hmod, Hpct.
  - apply spelled_cons in Hts as (pos1 & ts1 & -> & Hts).
    apply spelled_cons in Hts as (pos2 & ts2 & -> & Hts).
    apply spelled_cons in Hts as (pos3 & ts3 & -> & Hts).
    apply spelled_nil in Hts as ->. cbn [app lexeme_kind fst snd].
    unfold parse_expr. cbn [tok_type tok_text].
    rewrite operand_of_name_name.
    change (skip_token TWord "mod" (mkToken TWord "mod" pos2 :: ?r))
      with (Some r).
    cbv iota. by rewrite parse_value_spelled.
Qed.

Lemma range_stop_cases (rest : list token) :
  range_stop rest ->
  rest = [] \/ exists tx pos rest', rest = mkToken TWord tx pos :: rest'.
Proof.
  destruct rest as [|[ty tx pos] rest']; [by left|]. cbn. intros ->.
  right. by eexists _, _, _.
Qed.

Lemma parse_range_list_spelled (rl : list range) :
  rl <> [] ->
  forall sp ts rest, spelled ts (ranges_layout sp rl) -> range_stop rest ->
  parse_range_list (ts ++ rest) = Ok (rl, rest).
Proof.
  induction rl as [|r rl IH]; intros Hne sp ts rest Hts Hstop; [done|].
  cbn [ranges_layout] in Hts.
  apply spelled_app in Hts as (ts1 & ts2 & -> & Hts1 & Hts2).
  destruct rl as [|r' rl].
  - apply spelled_nil in Hts2 as ->. rewrite app_nil_r.
    destruct r as [k|lo hi]; cbn [range_layout] in Hts1.
    + apply spelled_cons in Hts1 as (pos1 & ? & -> & Hts1).
      apply spelled_nil in Hts1 as ->. cbn [app lexeme_kind fst snd].
      cbn [parse_range_list tok_type tok_text]. rewrite int_of_digits_str_N.
      by destruct (range_stop_cases rest Hstop) as [->|(tx & pos & rest' & ->)].
    + apply spelled_cons in Hts1 as (pos1 & ? & -> & Hts1).
      apply spelled_cons in Hts1 as (pos2 & ? & -> & Hts1).
      apply spelled_cons in Hts1 as (pos3 & ? & -> & Hts1).
      apply spelled_nil in Hts1 as ->. cbn [app lexeme_kind fst snd].
      cbn [parse_range_list tok_type tok_text]. rewrite !int_of_digits_str_N.
      by destruct (range_stop_cases rest Hstop) as [->|(tx & pos & rest' & ->)].
  - apply spelled_cons in Hts2 as (posc & ts3 & -> & Hts3).
    specialize (IH ltac:(done) false ts3 rest Hts3 Hstop).
    destruct r as [k|lo hi]; cbn [range_layout] in Hts1.
    + apply spelled_cons in Hts1 as (pos1 & ? & -> & Hts1).
      apply spelled_nil in Hts1 as ->. cbn [app lexeme_kind fst snd].
      cbn [parse_range_list tok_type tok_text]. rewrite int_of_digits_str_N.
      change (tok_is TSymbol "," (mkToken TSymbol "," posc)) with true. cbv iota.
      by rewrite IH.
    + apply spelled_cons in Hts1 as (pos1 & ? & -> & Hts1).
      apply spelled_cons in Hts1 as (pos2 & ? & -> & Hts1).
      apply spelled_cons in Hts1 as (pos3 & ? & -> & Hts1).
      apply spelled_nil in Hts1 as ->. cbn [app lexeme_kind fst snd].
      cbn [parse_range_list tok_type tok_text]. rewrite !int_of_digits_str_N.
      change (tok_is TSymbol "," (mkToken TSymbol "," posc)) with true. cbv iota.
      by rewrite IH.
Qed.

Lemma stop_range_stop (rest : list token) : stop rest -> range_stop rest.
Proof.
  destruct rest as [|[ty tx pos] rest]; [done|].
  unfold token_kind. cbn. by intros [[= -> _]|[= -> _]].
Qed.

Lemma parse_relation_spelled (r : ast) (sp : bool) (ts rest : list token) :
  is_relation r -> spelled ts (ast_layout sp r) -> stop rest ->
  parse_relation (ts ++ rest) = Ok (r, rest).
Proof.
  intros Hr Hts Hstop. pose proof (stop_range_stop rest Hstop) as Hrs.
  destruct Hr as [e k He|e k He|negated m e rl He Hrl]; cbn [ast_layout] in Hts;
    apply spelled_app in Hts as (te & ts2 & -> & Hte & Hts2).
  - apply spelled_cons in Hts2 as (pos1 & ? & -> & Hts2).
    apply spelled_cons in Hts2 as (pos2 & ? & -> & Hts2).
    apply spelled_nil in Hts2 as ->. cbn [lexeme_kind fst snd].
    rewrite <- app_assoc. unfold parse_relation.
    rewrite (parse_expr_spelled e sp te _ He Hte) by done.
    rewrite bind_Ok. cbn [app].
    change (skip_token TWord "is" (mkToken TWord "is" pos1 :: ?x)) with (Some x).
    cbv iota.
    change (skip_token TWord "not" (mkToken TValue (str_N k) pos2 :: rest))
      with (@None (list token)).
    cbv iota. by rewrite parse_value_spelled.
  - apply spelled_cons in Hts2 as (pos1 & ? & -> & Hts2).
    apply spelled_cons in Hts2 as (pos2 & ? & -> & Hts2).
    apply spelled_cons in Hts2 as (pos3 & ? & -> & Hts2).
    apply spelled_nil in Hts2 as ->. cbn [lexeme_kind fst snd].
    rewrite <- app_assoc. unfold parse_relation.
    rewrite (parse_expr_spelled e sp te _ He Hte) by done.
    rewrite bind_Ok. cbn [app].
    change (skip_token TWord "is" (mkToken TWord "is" pos1 :: ?x)) with (Some x).
    cbv iota.
    change (skip_token TWord "not" (mkToken TWord "not" pos2 :: ?x)) with (Some x).
    cbv iota. by rewrite parse_value_spelled.
  - destruct negated; cbn [app] in Hts2.
    + apply spelled_cons in Hts2 as (pos1 & ? & -> & Hts2).
      apply spelled_cons in Hts2 as (pos2 & trl & -> & Hts2).
      cbn [lexeme_kind fst snd].
      rewrite <- app_assoc. unfold parse_relation.
      rewrite (parse_expr_spelled e sp te _ He Hte) by done.
      rewrite bind_Ok. cbn [app].
      change (skip_token TWord "is" (mkToken TWord "not" pos1 :: ?x))
        with (@None (list token)).
      cbv iota.
      change (skip_token TWord "not" (mkToken TWord "not" pos1 :: ?x)) with (Some x).
      cbv iota.
      pose proof (parse_range_list_spelled rl Hrl true trl rest Hts2 Hrs) as Hp.
      destruct m; cbn [method_name].
      * change (skip_token TWord "within" (mkToken TWord "in" pos2 :: ?x))
          with (@None (list token)).
        change (skip_token TWord "in" (mkToken TWord "in" pos2 :: ?x)) with (Some x).
        cbv iota. by rewrite Hp.
      * change (skip_token TWord "within" (mkToken TWord "within" pos2 :: ?x))
          with (Some x).
        cbv iota. by rewrite Hp.
    + apply spelled_cons in Hts2 as (pos2 & trl & -> & Hts2).
      cbn [lexeme_kind fst snd].
      rewrite <- app_assoc. unfold parse_relation.
      rewrite (parse_expr_spelled e sp te _ He Hte) by (by destruct m).
      rewrite bind_Ok. cbn [app].
      pose proof (parse_range_list_spelled rl Hrl true trl rest Hts2 Hrs) as Hp.
      destruct m; cbn [method_name].
      * change (skip_token TWord "is" (mkToken TWord "in" pos2 :: ?x))
          with (@None (list token)).
        change (skip_token TWord "not" (mkToken TWord "in" pos2 :: ?x))
          with (@None (list token)).
        change (skip_token TWord "within" (mkToken TWord "in" pos2 :: ?x))
          with (@None (list token)).
        change (skip_token TWord "in" (mkToken TWord "in" pos2 :: ?x)) with (Some x).
        cbv iota. by rewrite Hp.
      * change (skip_token TWord "is" (mkToken TWord "within" pos2 :: ?x))
          with (@None (list token)).
        change (skip_token TWord "not" (mkToken TWord "within" pos2 :: ?x))
          with (@None (list token)).
        change (skip_token TWord "within" (mkToken TWord "within" pos2 :: ?x))
          with (Some x).
        cbv iota. by rewrite Hp.
Qed.

(** *** The [and] and [or] chains *)

Lemma and_loop_stops (fuel : nat) (a : ast) (rest : list token) :
  not_and rest -> and_loop fuel a rest = Ok (a, rest).
Proof.
  destruct rest as [|[ty tx pos] rest]; intros H; destruct fuel; try done;
    unfold token_kind in H; cbn in H; by injection H as -> ->.
Qed.

Lemma or_loop_stops (fuel : nat) (c : ast) : or_loop fuel c [] = Ok (c, []).
Proof. by destruct fuel. Qed.

Lemma relation_and_count (r : ast) : is_relation r -> and_count r = O.
Proof. by intros []. Qed.

Lemma and_condition_or_count (a : ast) : is_and_condition a -> or_count a = O.
Proof. intros [r []|]; done. Qed.

Lemma and_count_connectives (a : ast) : (and_count a <= connectives a)%nat.
Proof. induction a; cbn; lia. Qed.

Lemma or_count_connectives (a : ast) : (or_count a <= connectives a)%nat.
Proof. induction a; cbn; lia. Qed.

Lemma parse_and_condition_spelled (a : ast) :
  is_and_condition a ->
  forall sp ts rest fuel,
    spelled ts (ast_layout sp a) -> stop rest -> (and_count a <= fuel)%nat ->
    parse_and_condition fuel (ts ++ rest) = and_loop (fuel - and_count a) a rest.
Proof.
  induction 1 as [r Hr|a r Ha IH Hr]; intros sp ts rest fuel Hts Hstop Hfuel.
  - unfold parse_and_condition.
    rewrite (parse_relation_spelled r sp ts rest Hr Hts Hstop), bind_Ok.
    by rewrite relation_and_count, Nat.sub_0_r.
  - cbn [ast_layout] in Hts.
    apply spelled_app in Hts as (ts1 & ts2 & -> & Hts1 & Hts2).
    apply spelled_cons in Hts2 as (pos & tsr & -> & Htsr).
    cbn [lexeme_kind fst snd and_count] in *.
    rewrite <- app_assoc, <- app_comm_cons.
    rewrite (IH sp ts1 _ fuel Hts1) by (done || (by left) || lia).
    destruct (fuel - and_count a)%nat as [|fuel'] eqn:Hf; [lia|].
    cbn [and_loop].
    change (skip_token TWord "and" (mkToken TWord "and" pos :: ?x)) with (Some x).
    cbv iota.
    rewrite (parse_relation_spelled r true tsr rest Hr Htsr Hstop), bind_Ok.
    f_equal. lia.
Qed.

Lemma parse_or_chain_spelled (c : ast) :
  is_condition c ->
  forall sp ts rest fuel,
    spelled ts (ast_layout sp c) -> not_and rest -> (connectives c <= fuel)%nat ->
    ('(lhs, ts1) ← parse_and_condition fuel (ts ++ rest); or_loop fuel lhs ts1) =
    or_loop (fuel - or_count c) c rest.
Proof.
  assert (forall rest, not_and rest -> stop rest) as Hstop.
  { intros [|t rest]; [done|]. cbn. by right. }
  induction 1 as [a Ha|c a Hc IH Ha]; intros sp ts rest fuel Hts Hrest Hfuel.
  - rewrite (parse_and_condition_spelled a Ha sp ts rest fuel Hts) by
      (auto; pose proof (and_count_connectives a); lia).
    rewrite and_loop_stops, bind_Ok by done.
    by rewrite and_condition_or_count, Nat.sub_0_r.
  - cbn [ast_layout] in Hts.
    apply spelled_app in Hts as (ts1 & ts2 & -> & Hts1 & Hts2).
    apply spelled_cons in Hts2 as (pos & tsa & -> & Htsa).
    cbn [lexeme_kind fst snd or_count connectives] in *.
    rewrite <- app_assoc, <- app_comm_cons.
    rewrite (IH sp ts1 _ fuel Hts1) by (done || lia).
    pose proof (or_count_connectives c) as Hoc.
    pose proof (and_count_connectives a) as Hac.
    destruct (fuel - or_count c)%nat as [|fuel'] eqn:Hf; [lia|].
    cbn [or_loop].
    change (skip_token TWord "or" (mkToken TWord "or" pos :: ?x)) with (Some x).
    cbv iota.
    rewrite (parse_and_condition_spelled a Ha true tsa rest fuel' Htsa) by (auto; lia).
    rewrite and_loop_stops, bind_Ok by done.
    f_equal. lia.
Qed.

Lemma connectives_layout (sp : bool) (a : ast) :
  (connectives a <= length (ast_layout sp a))%nat.
Proof.
  revert sp. induction a as [k|o|l IHl r IHr|l IHl r IHr|l IHl r IHr|negated m e IHe rl|
                  l IHl r IHr|l IHl r IHr|x IHx]; intros sp;
    cbn [connectives ast_layout]; try lia;
    rewrite length_app; cbn [length];
    specialize (IHl sp); specialize (IHr true); lia.
Qed.

Lemma parse_condition_spelled (c : ast) (sp : bool) (ts : list token) :
  is_condition c -> spelled ts (ast_layout sp c) ->
  parse_condition ts = Ok (c, []).
Proof.
  intros Hc Hts. unfold parse_condition.
  rewrite <- (app_nil_r ts) at 2.
  rewrite (parse_or_chain_spelled c Hc sp ts [] (length ts) Hts); [|done|].
  - apply or_loop_stops.
  - rewrite (spelled_length ts _ Hts). apply connectives_layout.
Qed.

Lemma expr_layout_nonempty (sp : bool) (e : ast) :
  is_expr e -> ast_layout sp e <> [].
Proof. by intros []. Qed.

Lemma condition_layout_nonempty (sp : bool) (c : ast) :
  is_condition c -> ast_layout sp c <> [].
Proof.
  assert (forall l1 l2 : list (bool * lexeme), l1 <> [] -> l1 ++ l2 <> []) as Happ.
  { intros [|x l1] l2; [done|]. by rewrite <- app_comm_cons. }
  assert (forall r, is_relation r -> ast_layout sp r <> []) as Hrel.
  { intros r [e k He|e k He|negated m e rl He Hrl]; cbn [ast_layout];
      by apply Happ, expr_layout_nonempty. }
  assert (forall a, is_and_condition a -> ast_layout sp a <> []) as Hand.
  { induction 1; [by apply Hrel|]. cbn [ast_layout]. by apply Happ. }
  induction 1; [by apply Hand|]. cbn [ast_layout]. by apply Happ.
Qed.

(** The parser reads the canonical text of a tree of the grammar back as
    that tree. *)
Lemma _Parser_canonical (c : ast) :
  is_condition c -> _Parser (compile _UnicodeCompiler c) = Ok (Some c).
Proof.
  intros Hc. unfold _Parser.
  pose proof (tokenize_canonical c Hc) as Htok.
  destruct (tokenize_rule (compile _UnicodeCompiler c)) as [ts|e]; [|done].
  cbn [scanned_kinds] in Htok. injection Htok as Hts.
  rewrite bind_Ok.
  destruct ts as [|t ts].
  - exfalso. apply (condition_layout_nonempty false c Hc).
    symmetry in Hts. apply fmap_nil_inv in Hts. done.
  - rewrite (parse_condition_spelled c false (t :: ts) Hc Hts), bind_Ok.
    reflexivity.
Qed.

(** ** What the parser returns is a tree of the grammar *)

Lemma parse_expr_is_expr (ts rest : list token) (e : ast) :
  parse_expr ts = Ok (e, rest) -> is_expr e.
Proof.
  unfold parse_expr. intros H.
  destruct ts as [|t ts]; [done|].
  destruct (tok_type t); try done.
  destruct (operand_of_name (tok_text t)) as [o|]; [|done].
  destruct (skip_token TWord "mod" ts) as [ts1|].
  - destruct (parse_value ts1) as [[k ts2]|]; [|done].
    injection H as <- _. constructor.
  - destruct (skip_token TSymbol "%" ts) as [ts1|].
    + destruct (parse_value ts1) as [[k ts2]|]; [|done].
      injection H as <- _. constructor.
    + injection H as <- _. constructor.
Qed.

Lemma parse_range_list_nonempty (ts rest : list token) (rl : list range) :
  parse_range_list ts = Ok (rl, rest) -> rl <> [].
Proof.
  destruct ts as [|t1 rest1]; [done|]. cbn [parse_range_list].
  destruct (tok_type t1); try done.
  destruct (int_of_digits (tok_text t1)) as [lo|]; [|done].
  destruct rest1 as [|t2 rest2]; [by intros [= <- _]|].
  assert (forall r : result (list range * list token),
            ((if tok_is TSymbol "," t2
              then '(items, remaining) ← r; Ok (RSingle lo :: items, remaining)
              else Ok ([RSingle lo], t2 :: rest2)) = Ok (rl, rest)) -> rl <> []) as Hsingle.
  { intros r. destruct (tok_is TSymbol "," t2); [|by intros [= <- _]].
    destruct r as [[items remaining]|]; [|done]. by intros [= <- _]. }
  destruct (tok_type t2); try apply Hsingle.
  destruct rest2 as [|t3 rest3]; [done|].
  destruct (tok_type t3); try done.
  destruct (int_of_digits (tok_text t3)) as [hi|]; [|done].
  destruct rest3 as [|t4 rest4]; [by intros [= <- _]|].
  destruct (tok_is TSymbol "," t4); [|by intros [= <- _]].
  destruct (parse_range_list rest4) as [[items remaining]|]; [|done].
  by intros [= <- _].
Qed.

Lemma parse_relation_is_relation (ts rest : list token) (r : ast) :
  parse_relation ts = Ok (r, rest) -> is_relation r.
Proof.
  unfold parse_relation. intros H.
  apply bind_Ok_inv in H as ([e ts1] & He & H).
  apply parse_expr_is_expr in He.
  assert (forall negated m ts3,
            ('(rl, ts4) ← parse_range_list ts3; Ok (Relation negated m e rl, ts4)) =
            Ok (r, rest) -> is_relation r) as Hmember.
  { intros negated m ts3 Hm.
    apply bind_Ok_inv in Hm as ([rl ts4] & Hrl & [= <- _]).
    constructor; [done|]. by eapply parse_range_list_nonempty. }
  assert (forall ts3 (mk : ast -> ast -> ast),
            (mk = Is \/ mk = IsNot) ->
            ('(k, ts4) ← parse_value ts3; Ok (mk e (Value k), ts4)) = Ok (r, rest) ->
            is_relation r) as Hvalue.
  { intros ts3 mk Hmk Hv.
    apply bind_Ok_inv in Hv as ([k ts4] & _ & [= <- _]).
    destruct Hmk as [->| ->]; by constructor. }
  destruct (skip_token TWord "is" ts1) as [ts2|].
  - destruct (skip_token TWord "not" ts2) as [ts3|].
    + apply (Hvalue ts3 IsNot); [by right | done].
    + apply (Hvalue ts2 Is); [by left | done].
  - destruct (skip_token TWord "not" ts1) as [ts2|].
    + destruct (skip_token TWord "within" ts2) as [ts3|]; [by eapply Hmember|].
      destruct (skip_token TWord "in" ts2) as [ts3|]; [by eapply Hmember | done].
    + destruct (skip_token TWord "within" ts1) as [ts3|]; [by eapply Hmember|].
      destruct (skip_token TWord "in" ts1) as [ts3|]; [by eapply Hmember|].
      destruct (skip_token TSymbol "=" ts1) as [ts3|]; [by eapply Hmember|].
      destruct (skip_token TSymbol "!=" ts1) as [ts3|]; [by eapply Hmember | done].
Qed.

Lemma and_loop_is_and_condition (fuel : nat) (acc : ast) (ts rest : list token) (a : ast) :
  is_and_condition acc -> and_loop fuel acc ts = Ok (a, rest) -> is_and_condition a.
Proof.
  revert acc ts. induction fuel as [|fuel IH]; intros acc ts Hacc H; cbn [and_loop] in H.
  - destruct (skip_token TWord "and" ts); [done|]. by injection H as <- _.
  - destruct (skip_token TWord "and" ts) as [ts1|]; [|by injection H as <- _].
    apply bind_Ok_inv in H as ([r ts2] & Hr & H).
    apply (IH (And acc r) ts2); [|done].
    constructor; [done|]. by eapply parse_relation_is_relation.
Qed.

Lemma parse_and_condition_is_and_condition (fuel : nat) (ts rest : list token) (a : ast) :
  parse_and_condition fuel ts = Ok (a, rest) -> is_and_condition a.
Proof.
  unfold parse_and_condition. intros H.
  apply bind_Ok_inv in H as ([r ts1] & Hr & H).
  apply (and_loop_is_and_condition fuel r ts1 rest); [|done].
  constructor. by eapply parse_relation_is_relation.
Qed.

Lemma or_loop_is_condition (fuel : nat) (acc : ast) (ts rest : list token) (c : ast) :
  is_condition acc -> or_loop fuel acc ts = Ok (c, rest) -> is_condition c.
Proof.
  revert acc ts. induction fuel as [|fuel IH]; intros acc ts Hacc H; cbn [or_loop] in H.
  - destruct (skip_token TWord "or" ts); [done|]. by injection H as <- _.
  - destruct (skip_token TWord "or" ts) as [ts1|]; [|by injection H as <- _].
    apply bind_Ok_inv in H as ([a ts2] & Ha & H).
    apply (IH (Or acc a) ts2); [|done].
    constructor; [done|]. by eapply parse_and_condition_is_and_condition.
Qed.

Lemma parse_condition_is_condition (ts rest : list token) (c : ast) :
  parse_condition ts = Ok (c, rest) -> is_condition c.
Proof.
  unfold parse_condition. intros H.
  apply bind_Ok_inv in H as ([a ts1] & Ha & H).
  apply (or_loop_is_condition (length ts) a ts1 rest); [|done].
  constructor. by eapply parse_and_condition_is_and_condition.
Qed.

Lemma _Parser_is_condition (text : string) (c : ast) :
  _Parser text = Ok (Some c) -> is_condition c.
Proof.
  unfold _Parser. intros H.
  apply bind_Ok_inv in H as (ts & _ & H).
  destruct ts as [|t ts]; [done|].
  apply bind_Ok_inv in H as ([a remaining] & Ha & H).
  destruct (List.last (Some <$> remaining) None); [done|].
  injection H as <-. by eapply parse_condition_is_condition.
Qed.

(** Parsing, rendering and parsing again gives the same tree. *)
Lemma _Parser_render (text : string) (c : ast) :
  _Parser text = Ok (Some c) ->
  _Parser (compile _UnicodeCompiler c) = Ok (Some c).
Proof. intros H. by apply _Parser_canonical, (_Parser_is_condition text). Qed.

(** ** The order of [sorted] *)

Lemma compare_refl (s : string) : String.compare s s = Eq.
Proof.
  pose proof (String.compare_antisym s s) as H.
  by destruct (String.compare s s).
Qed.

Lemma compare_Lt_iff (s1 s2 : string) :
  String.compare s1 s2 = Lt <-> String.le s1 s2 /\ s1 <> s2.
Proof.
  unfold String.le, String.leb. split.
  - intros H. split; [by rewrite H|]. intros ->. by rewrite compare_refl in H.
  - intros [Hle Hne]. destruct (String.compare s1 s2) eqn:E; [|done|done].
    by apply String.compare_eq_iff in E.
Qed.

Lemma pair_le_iff (p q : string * string) :
  pair_le p q <->
  String.compare p.1 q.1 = Lt \/ (p.1 = q.1 /\ String.le p.2 q.2).
Proof.
  unfold pair_le, pair_leb, String.le. split.
  - destruct (String.compare p.1 q.1) eqn:E; [|by left|done].
    intros H. right. split; [by apply String.compare_eq_iff | by rewrite H].
  - intros [->|[-> H]]; [done|]. rewrite compare_refl. by destruct (String.leb p.2 q.2).
Qed.

#[global] Instance pair_le_trans : Transitive pair_le.
Proof.
  intros p q r. rewrite !pair_le_iff, !compare_Lt_iff.
  intros [[Hpq Hne]|[Hpq Hpq2]] [[Hqr Hne']|[Hqr Hqr2]].
  - left. split; [by etrans|]. intros Heq. rewrite Heq in *.
    apply Hne'. by apply (anti_symm String.le).
  - left. by rewrite <- Hqr.
  - left. by rewrite Hpq.
  - right. split; [congruence | by etrans].
Qed.

#[global] Instance pair_le_total : Total pair_le.
Proof.
  intros p q. rewrite !pair_le_iff, !compare_Lt_iff.
  destruct (decide (p.1 = q.1)) as [Heq|Hne].
  - destruct (total String.le p.2 q.2); [left|right]; right; by split.
  - destruct (total String.le p.1 q.1); [left|right]; left; by split.
Qed.

#[global] Instance pair_le_anti_symm : AntiSymm (=) pair_le.
Proof.
  intros [k1 e1] [k2 e2]. rewrite !pair_le_iff, !compare_Lt_iff. cbn [fst snd].
  intros [[H1 Hne]|[-> H1]] [[H2 Hne']|[Heq H2]]; try done.
  - exfalso. apply Hne. by apply (anti_symm String.le).
  - f_equal. by apply (anti_symm String.le).
Qed.

Lemma sorted_Sorted (l : list (string * string)) : Sorted pair_le (sorted l).
Proof. apply Sorted_merge_sort, _. Qed.

Lemma sorted_unique (l r : list (string * string)) :
  l ≡ₚ r -> Sorted pair_le r -> sorted l = r.
Proof.
  intros Hperm Hr. apply (Sorted_unique pair_le); [apply sorted_Sorted | done |].
  by rewrite sorted_Permutation.
Qed.

(** ** The round trip *)

Lemma stored_entries_keys (pairs : list (string * string)) :
  (forall k, k ∈ (stored_entries pairs).*1 -> k ∈ pairs.*1) /\
  (NoDup pairs.*1 -> NoDup (stored_entries pairs).*1).
Proof.
  induction pairs as [|[key expr] rest [IHin IHnd]]; [done|].
  rewrite stored_entries_cons. cbn [fmap list_fmap fst].
  destruct (_Parser expr) as [[a|]|e]; cbn [app fmap list_fmap fst].
  - split.
    + intros k Hk. apply elem_of_cons in Hk as [->|Hk]; [left | right; by apply IHin].
    + intros Hnd. apply NoDup_cons in Hnd as [Hk Hnd]. apply NoDup_cons.
      split; [|by apply IHnd]. intros Hin. by apply Hk, IHin.
  - split; [intros k Hk; right; by apply IHin|].
    intros Hnd. apply NoDup_cons in Hnd as [_ Hnd]. by apply IHnd.
  - split; [intros k Hk; right; by apply IHin|].
    intros Hnd. apply NoDup_cons in Hnd as [_ Hnd]. by apply IHnd.
Qed.

Lemma stored_entries_sorted (pairs : list (string * string)) :
  StronglySorted pair_le pairs -> NoDup pairs.*1 ->
  StronglySorted pair_le (render_entry <$> stored_entries pairs).
Proof.
  induction pairs as [|[key expr] rest IH]; intros Hs Hnd; [constructor|].
  apply StronglySorted_inv in Hs as [Hs Hall].
  cbn [fmap list_fmap fst] in Hnd. apply NoDup_cons in Hnd as [Hkey Hnd].
  specialize (IH Hs Hnd).
  rewrite stored_entries_cons.
  destruct (_Parser expr) as [[a|]|e]; cbn [app]; try done.
  rewrite fmap_cons. constructor; [done|].
  apply Forall_forall. intros [k' text'] Hin.
  apply list_elem_of_fmap in Hin as ([k'' a'] & [= -> ->] & Hin).
  apply elem_of_stored_entries in Hin as (expr' & Hin & _).
  rewrite Forall_forall in Hall. specialize (Hall _ Hin).
  apply pair_le_iff in Hall as [Hlt|[Heq _]]; cbn [fst snd] in *.
  - apply pair_le_iff. by left.
  - exfalso. apply Hkey. rewrite Heq.
    by apply (list_elem_of_fmap_2 fst rest (k'', expr')).
Qed.

Lemma stored_entries_render (abs : list (string * ast)) :
  Forall (fun p => is_condition p.2) abs ->
  stored_entries (render_entry <$> abs) = abs /\
  Forall parses (render_entry <$> abs).*2.
Proof.
  induction 1 as [|[k a] abs Ha Hall [IH1 IH2]]; [by split|].
  rewrite fmap_cons. unfold render_entry at 1 3. cbn [fst snd] in *.
  rewrite stored_entries_cons, (_Parser_canonical a Ha), IH1.
  split; [done|]. cbn [fmap list_fmap snd]. constructor; [|done].
  eexists. by apply _Parser_canonical.
Qed.

Lemma stored_entries_conditions (pairs : list (string * string)) :
  Forall (fun p => is_condition p.2) (stored_entries pairs).
Proof.
  apply Forall_forall. intros [k a] Hin.
  apply elem_of_stored_entries in Hin as (expr & _ & Hp).
  by apply (_Parser_is_condition expr).
Qed.

Lemma render_entry_keys (abs : list (string * ast)) :
  (render_entry <$> abs).*1 = abs.*1.
Proof. rewrite <- list_fmap_compose. by apply list_fmap_ext. Qed.

Lemma PluralRule_rules_items (r : PluralRule) :
  NoDup (abstract r).*1 ->
  items (FromMapping (PluralRule_rules r)) ≡ₚ render_entry <$> abstract r.
Proof.
  intros Hnd. unfold items, PluralRule_rules.
  fold render_entry. change (fun p : string * ast => (p.1, compile _UnicodeCompiler p.2))
    with render_entry.
  rewrite map_to_list_to_map.
  - by rewrite reverse_Permutation.
  - by rewrite fmap_reverse, reverse_Permutation, render_entry_keys.
Qed.

Lemma PluralRule_rules_lookup (r : PluralRule) (tag : string) (a : ast) :
  NoDup (abstract r).*1 -> (tag, a) ∈ abstract r ->
  PluralRule_rules r !! tag = Some (compile _UnicodeCompiler a).
Proof.
  intros Hnd Hin. unfold PluralRule_rules.
  apply elem_of_list_to_map.
  - change (fun p : string * ast => (p.1, compile _UnicodeCompiler p.2))
      with render_entry.
    by rewrite fmap_reverse, reverse_Permutation, render_entry_keys.
  - apply elem_of_reverse.
    by apply (list_elem_of_fmap_2 render_entry _ (tag, a)).
Qed.

(** C4: for a rule set built by the constructor, every stored tree is
    rendered by [rules] to a text that parses back to that tree, and
    constructing a rule set from the rendered mapping gives the same
    [abstract]. *)
Theorem rules_round_trip (rules : rules_input) (r : PluralRule) :
  PluralRule_init rules = Ok r ->
  (forall tag a, (tag, a) ∈ abstract r ->
     PluralRule_rules r !! tag = Some (compile _UnicodeCompiler a) /\
     _Parser (compile _UnicodeCompiler a) = Ok (Some a)) /\
  PluralRule_init (FromMapping (PluralRule_rules r)) = Ok r.
Proof.
  intros Hinit.
  apply PluralRule_init_Ok in Hinit as (Habs & Hfunc & _ & Htags & Hnd).
  pose proof (sorted_Permutation (items rules)) as Hperm.
  set (pairs := sorted (items rules)) in *.
  assert (NoDup pairs.*1) as Hnd' by by rewrite Hperm.
  assert (StronglySorted pair_le pairs) as Hsorted
    by (apply StronglySorted_merge_sort; apply _).
  destruct (stored_entries_keys pairs) as [Hkeys Hnodup].
  specialize (Hnodup Hnd'). rewrite <- Habs in Hkeys, Hnodup.
  pose proof (stored_entries_conditions pairs) as Hconds. rewrite <- Habs in Hconds.
  destruct (stored_entries_render (abstract r) Hconds) as [Hback Hparses].
  split.
  - intros tag a Hin. split; [by apply PluralRule_rules_lookup|].
    rewrite Forall_forall in Hconds. by apply _Parser_canonical, (Hconds (tag, a)).
  - unfold PluralRule_init.
    rewrite (sorted_unique _ (render_entry <$> abstract r)).
    + rewrite init_loop_accepts.
      * rewrite Hback, bind_Ok. destruct r as [abs func]. cbn in Hfunc. by subst.
      * done.
      * rewrite render_entry_keys. apply Forall_forall. intros k Hk.
        rewrite Forall_forall in Htags. apply Htags.
        rewrite <- Hperm. by apply Hkeys.
      * by rewrite render_entry_keys.
      * intros k _. apply not_elem_of_empty.
    + by apply PluralRule_rules_items.
    + apply StronglySorted_Sorted. rewrite Habs. by apply stored_entries_sorted.
Qed.

Lemma rules_round_trip_witness :
  (forall tag a,
     (tag, a) ∈ abstract (mkPluralRule [("one", Is (Operand op_n) (Value 1))] None) ->
     PluralRule_rules (mkPluralRule [("one", Is (Operand op_n) (Value 1))] None) !! tag =
       Some (compile _UnicodeCompiler a) /\
     _Parser (compile _UnicodeCompiler a) = Ok (Some a)) /\
  PluralRule_init
    (FromMapping (PluralRule_rules (mkPluralRule [("one", Is (Operand op_n) (Value 1))] None))) =
  Ok (mkPluralRule [("one", Is (Operand op_n) (Value 1))] None).
Proof.
  apply (rules_round_trip (FromPairs [("one", "n is 1")])).
  vm_compute. reflexivity.
Defined.

Example rules_round_trip_example :
  exists r,
    PluralRule_init
      (FromPairs [("few", "n % 10 = 3..4,9 and n % 100 != 10..19 or v is not 0");
                  ("one", "n within 0..1  and  i is 1")]) = Ok r /\
    sorted (map_to_list (PluralRule_rules r)) =
      [("few", "n mod 10 in 3..4,9 and n mod 100 not in 10..19 or v is not 0");
       ("one", "n within 0..1 and i is 1")] /\
    PluralRule_init (FromMapping (PluralRule_rules r)) = Ok r.
Proof.
  eexists. split; [by vm_compute|]. split; by vm_compute.
Qed.

(** ** The parser needs no more fuel than it is given *)

Lemma skip_token_shorter (ty : toktype) (text : string) (ts rest : list token) :
  skip_token ty text ts = Some rest -> length ts = S (length rest).
Proof.
  destruct ts as [|t ts]; [done|]. cbn.
  destruct (tok_is ty text t); [|done]. by intros [= ->].
Qed.

Lemma parse_value_shorter (ts rest : list token) (k : N) :
  parse_value ts = Ok (k, rest) -> length ts = S (length rest).
Proof.
  unfold parse_value. destruct ts as [|t ts]; [done|].
  destruct (tok_type t); try done.
  destruct (int_of_digits (tok_text t)); [|done]. by intros [= _ ->].
Qed.

Lemma parse_expr_shorter (ts rest : list token) (e : ast) :
  parse_expr ts = Ok (e, rest) -> (length rest < length ts)%nat.
Proof.
  unfold parse_expr. destruct ts as [|t ts]; [done|].
  destruct (tok_type t); try done.
  destruct (operand_of_name (tok_text t)); [|done].
  assert (forall rest' : list token,
            (length ts = S (length rest')) ->
            ('(k, rest'') ← parse_value rest'; Ok (Mod (Operand o) (Value k), rest'')) =
            Ok (e, rest) -> (length rest < length (t :: ts))%nat) as Hmod.
  { intros rest' Hlen H. apply bind_Ok_inv in H as ([k r] & Hv & [= _ <-]).
    apply parse_value_shorter in Hv. cbn. lia. }
  destruct (skip_token TWord "mod" ts) as [ts1|] eqn:E1.
  - apply Hmod. by eapply skip_token_shorter.
  - destruct (skip_token TSymbol "%" ts) as [ts1|] eqn:E2.
    + apply Hmod. by eapply skip_token_shorter.
    + intros [= _ <-]. cbn. lia.
Qed.

Lemma parse_range_list_shorter (n : nat) (ts rest : list token) (rl : list range) :
  (length ts <= n)%nat ->
  parse_range_list ts = Ok (rl, rest) -> (length rest < length ts)%nat.
Proof.
  revert ts rest rl. induction n as [|n IH]; intros ts rest rl Hn.
  { destruct ts; [done | cbn in Hn; lia]. }
  destruct ts as [|t1 rest1]; [done|]. cbn [parse_range_list].
  destruct (tok_type t1); try done.
  destruct (int_of_digits (tok_text t1)) as [lo|]; [|done].
  destruct rest1 as [|t2 rest2]; [intros [= _ <-]; cbn; lia|].
  assert (((if tok_is TSymbol "," t2
            then '(items, remaining) ← parse_range_list rest2;
                 Ok (RSingle lo :: items, remaining)
            else Ok ([RSingle lo], t2 :: rest2)) = Ok (rl, rest)) ->
          (length rest < length (t1 :: t2 :: rest2))%nat) as Hsingle.
  { destruct (tok_is TSymbol "," t2); [|intros [= _ <-]; cbn; lia].
    intros H. apply bind_Ok_inv in H as ([items remaining] & Hr & [= _ <-]).
    apply IH in Hr; cbn in *; lia. }
  destruct (tok_type t2); try apply Hsingle.
  destruct rest2 as [|t3 rest3]; [done|].
  destruct (tok_type t3); try done.
  destruct (int_of_digits (tok_text t3)) as [hi|]; [|done].
  destruct rest3 as [|t4 rest4]; [intros [= _ <-]; cbn; lia|].
  destruct (tok_is TSymbol "," t4); [|intros [= _ <-]; cbn; lia].
  intros H. apply bind_Ok_inv in H as ([items remaining] & Hr & [= _ <-]).
  apply IH in Hr; cbn in *; lia.
Qed.

Lemma parse_relation_shorter (ts rest : list token) (r : ast) :
  parse_relation ts = Ok (r, rest) -> (length rest < length ts)%nat.
Proof.
  unfold parse_relation. intros H.
  apply bind_Ok_inv in H as ([e ts1] & He & H).
  apply parse_expr_shorter in He.
  assert (forall negated m ts3,
            (length ts3 <= length ts1)%nat ->
            ('(rl, ts4) ← parse_range_list ts3; Ok (Relation negated m e rl, ts4)) =
            Ok (r, rest) -> (length rest < length ts)%nat) as Hmember.
  { intros negated m ts3 Hlen Hm.
    apply bind_Ok_inv in Hm as ([rl ts4] & Hrl & [= _ <-]).
    apply (parse_range_list_shorter (length ts3)) in Hrl; lia. }
  assert (forall ts3 (mk : ast -> ast -> ast),
            (length ts3 <= length ts1)%nat ->
            ('(k, ts4) ← parse_value ts3; Ok (mk e (Value k), ts4)) = Ok (r, rest) ->
            (length rest < length ts)%nat) as Hvalue.
  { intros ts3 mk Hlen Hv.
    apply bind_Ok_inv in Hv as ([k ts4] & Hk & [= _ <-]).
    apply parse_value_shorter in Hk. lia. }
  destruct (skip_token TWord "is" ts1) as [ts2|] eqn:E1.
  - apply skip_token_shorter in E1.
    destruct (skip_token TWord "not" ts2) as [ts3|] eqn:E2.
    + apply skip_token_shorter in E2. apply (Hvalue ts3 IsNot); [lia | done].
    + apply (Hvalue ts2 Is); [lia | done].
  - destruct (skip_token TWord "not" ts1) as [ts2|] eqn:E2.
    + apply skip_token_shorter in E2.
      destruct (skip_token TWord "within" ts2) as [ts3|] eqn:E3.
      { apply skip_token_shorter in E3. eapply Hmember; [|done]. lia. }
      destruct (skip_token TWord "in" ts2) as [ts3|] eqn:E4; [|done].
      apply skip_token_shorter in E4. eapply Hmember; [|done]. lia.
    + destruct (skip_token TWord "within" ts1) as [ts3|] eqn:E3.
      { apply skip_token_shorter in E3. eapply Hmember; [|done]. lia. }
      destruct (skip_token TWord "in" ts1) as [ts3|] eqn:E4.
      { apply skip_token_shorter in E4. eapply Hmember; [|done]. lia. }
      destruct (skip_token TSymbol "=" ts1) as [ts3|] eqn:E5.
      { apply skip_token_shorter in E5. eapply Hmember; [|done]. lia. }
      destruct (skip_token TSymbol "!=" ts1) as [ts3|] eqn:E6; [|done].
      apply skip_token_shorter in E6. eapply Hmember; [|done]. lia.
Qed.

Lemma unexpected_not_fuel (what : string) (ts : list token) :
  unexpected what ts <> RecursionError.
Proof. by destruct ts. Qed.

Lemma bind_fuel {A B : Type} (r : result A) (k : A -> result B) :
  ~ out_of_fuel r -> (forall a, r = Ok a -> ~ out_of_fuel (k a)) ->
  ~ out_of_fuel (r ≫= k).
Proof.
  unfold out_of_fuel. destruct r as [a|e]; intros Hr Hk; [by apply Hk|].
  rewrite bind_Raise. intros [= ->]. by apply Hr.
Qed.

Lemma unexpected_fuel {A : Type} (what : string) (ts : list token) :
  ~ out_of_fuel (Raise (unexpected what ts) : result A).
Proof. unfold out_of_fuel. intros [= H]. by apply (unexpected_not_fuel what ts). Qed.

Lemma Ok_fuel {A : Type} (a : A) : ~ out_of_fuel (Ok a).
Proof. done. Qed.

Lemma parse_value_fuel (ts : list token) : ~ out_of_fuel (parse_value ts).
Proof.
  unfold parse_value.
  destruct ts as [|t ts]; [apply unexpected_fuel|].
  destruct (tok_type t), (int_of_digits (tok_text t));
    (apply unexpected_fuel || apply Ok_fuel).
Qed.

Lemma parse_expr_fuel (ts : list token) : ~ out_of_fuel (parse_expr ts).
Proof.
  unfold parse_expr.
  destruct ts as [|t ts]; [apply unexpected_fuel|].
  destruct (tok_type t); try apply unexpected_fuel.
  destruct (operand_of_name (tok_text t)) as [o|]; [|apply unexpected_fuel].
  assert (forall rest' : list token,
    ~ out_of_fuel ('(k, rest'') ← parse_value rest';
                   Ok (Mod (Operand o) (Value k), rest''))) as Hmod.
  { intros rest'. apply bind_fuel; [apply parse_value_fuel|]. by intros [k r] _. }
  destruct (skip_token TWord "mod" ts); [apply Hmod|].
  destruct (skip_token TSymbol "%" ts); [apply Hmod | done].
Qed.

Lemma parse_range_list_fuel (n : nat) (ts : list token) :
  (length ts <= n)%nat -> ~ out_of_fuel (parse_range_list ts).
Proof.
  revert ts. induction n as [|n IH]; intros ts Hn.
  { destruct ts; [apply unexpected_fuel | cbn in Hn; lia]. }
  destruct ts as [|t1 rest1]; [apply unexpected_fuel|]. cbn [parse_range_list].
  assert (forall (ts' : list token) (mk : list range -> list range),
            (length ts' <= n)%nat ->
            ~ out_of_fuel ('(items, remaining) ← parse_range_list ts';
                           Ok (mk items, remaining))) as Hrec.
  { intros ts' mk Hlen. apply bind_fuel; [by apply IH|]. by intros [items r] _. }
  destruct (tok_type t1); try apply unexpected_fuel.
  destruct (int_of_digits (tok_text t1)) as [lo|]; [|apply unexpected_fuel].
  destruct rest1 as [|t2 rest2]; [done|].
  assert (~ out_of_fuel
            (if tok_is TSymbol "," t2
             then '(items, remaining) ← parse_range_list rest2;
                  Ok (RSingle lo :: items, remaining)
             else Ok ([RSingle lo], t2 :: rest2))) as Hsingle.
  { destruct (tok_is TSymbol "," t2); [|done].
    apply (Hrec rest2 (cons (RSingle lo))). cbn in Hn. lia. }
  destruct (tok_type t2); try apply Hsingle.
  destruct rest2 as [|t3 rest3]; [apply unexpected_fuel|].
  destruct (tok_type t3); try apply unexpected_fuel.
  destruct (int_of_digits (tok_text t3)) as [hi|]; [|apply unexpected_fuel].
  destruct rest3 as [|t4 rest4]; [done|].
  destruct (tok_is TSymbol "," t4); [|done].
  apply (Hrec rest4 (cons (RRange lo hi))). cbn in Hn. lia.
Qed.

Lemma parse_relation_fuel (ts : list token) : ~ out_of_fuel (parse_relation ts).
Proof.
  unfold parse_relation. apply bind_fuel; [apply parse_expr_fuel|].
  intros [e ts1] _.
  assert (forall negated m ts3,
            ~ out_of_fuel ('(rl, ts4) ← parse_range_list ts3;
                           Ok (Relation negated m e rl, ts4))) as Hmember.
  { intros negated m ts3. apply bind_fuel;
      [by apply (parse_range_list_fuel (length ts3))|]. by intros [rl r] _. }
  assert (forall ts3 (mk : ast -> ast -> ast),
            ~ out_of_fuel ('(k, ts4) ← parse_value ts3; Ok (mk e (Value k), ts4)))
    as Hvalue.
  { intros ts3 mk. apply bind_fuel; [apply parse_value_fuel|]. by intros [k r] _. }
  destruct (skip_token TWord "is" ts1) as [ts2|].
  - destruct (skip_token TWord "not" ts2); [apply (Hvalue _ IsNot) | apply (Hvalue _ Is)].
  - destruct (skip_token TWord "not" ts1) as [ts2|].
    + destruct (skip_token TWord "within" ts2); [apply Hmember|].
      destruct (skip_token TWord "in" ts2); [apply Hmember|].
      apply unexpected_fuel.
    + destruct (skip_token TWord "within" ts1); [apply Hmember|].
      destruct (skip_token TWord "in" ts1); [apply Hmember|].
      destruct (skip_token TSymbol "=" ts1); [apply Hmember|].
      destruct (skip_token TSymbol "!=" ts1); [apply Hmember|].
      apply unexpected_fuel.
Qed.

Lemma and_loop_fuel (fuel : nat) (acc : ast) (ts : list token) :
  (length ts <= fuel)%nat ->
  ~ out_of_fuel (and_loop fuel acc ts) /\
  (forall a rest, and_loop fuel acc ts = Ok (a, rest) -> (length rest <= length ts)%nat).
Proof.
  revert acc ts. induction fuel as [|fuel IH]; intros acc ts Hlen; cbn [and_loop].
  - destruct ts; [|cbn in Hlen; lia]. cbn. split; [done|]. by intros a rest [= _ <-].
  - destruct (skip_token TWord "and" ts) as [ts1|] eqn:E;
      [|split; [done | by intros a rest [= _ <-]]].
    apply skip_token_shorter in E. split.
    + apply bind_fuel; [apply parse_relation_fuel|].
      intros [r ts2] Hr. apply parse_relation_shorter in Hr.
      apply IH. lia.
    + intros a rest H. apply bind_Ok_inv in H as ([r ts2] & Hr & H).
      apply parse_relation_shorter in Hr.
      apply IH in H; lia.
Qed.

Lemma parse_and_condition_fuel (fuel : nat) (ts : list token) :
  (length ts <= S fuel)%nat ->
  ~ out_of_fuel (parse_and_condition fuel ts) /\
  (forall a rest, parse_and_condition fuel ts = Ok (a, rest) ->
                  (length rest < length ts)%nat).
Proof.
  intros Hlen. unfold parse_and_condition. split.
  - apply bind_fuel; [apply parse_relation_fuel|].
    intros [r ts1] Hr. apply parse_relation_shorter in Hr.
    apply and_loop_fuel. lia.
  - intros a rest H. apply bind_Ok_inv in H as ([r ts1] & Hr & H).
    apply parse_relation_shorter in Hr.
    apply and_loop_fuel in H; lia.
Qed.

Lemma or_loop_fuel (fuel : nat) (acc : ast) (ts : list token) :
  (length ts <= fuel)%nat -> ~ out_of_fuel (or_loop fuel acc ts).
Proof.
  revert acc ts. induction fuel as [|fuel IH]; intros acc ts Hlen; cbn [or_loop].
  - destruct ts; [done | cbn in Hlen; lia].
  - destruct (skip_token TWord "or" ts) as [ts1|] eqn:E; [|done].
    apply skip_token_shorter in E.
    destruct (parse_and_condition_fuel fuel ts1 ltac:(lia)) as [Hf Hs].
    apply bind_fuel; [done|].
    intros [a ts2] Ha. apply Hs in Ha. apply IH. lia.
Qed.

Lemma parse_condition_fuel (ts : list token) : ~ out_of_fuel (parse_condition ts).
Proof.
  unfold parse_condition.
  destruct (parse_and_condition_fuel (length ts) ts ltac:(lia)) as [Hf Hs].
  apply bind_fuel; [done|].
  intros [a ts1] Ha. apply Hs in Ha. apply or_loop_fuel. lia.
Qed.

Lemma scan_fuel (text : string) (skip pos : nat) (prev : option ascii) :
  ~ out_of_fuel (scan skip pos prev text).
Proof.
  revert skip pos prev. induction text as [|ch rest IH]; intros skip pos prev; [done|].
  cbn [scan]. destruct skip as [|skip]; [|apply IH].
  destruct (match_rule prev (String ch rest)) as [[ty len]|]; [|done].
  apply bind_fuel; [apply IH | done].
Qed.

(** The parser is total: it returns a tree, [None], or raises an error of
    the rule text; its fuel never runs out. *)
Lemma _Parser_total (text : string) : _Parser text <> Raise RecursionError.
Proof.
  change (~ out_of_fuel (_Parser text)). unfold _Parser.
  apply bind_fuel; [apply scan_fuel|].
  intros [|t ts] _; [done|].
  apply bind_fuel; [apply parse_condition_fuel|].
  intros [a remaining] _. by destruct (List.last (Some <$> remaining) None).
Qed.

(** A tree that the grammar cannot produce, an [or] under an [and], is
    rendered without parentheses and reads back as another tree. *)
Example nested_or_reads_back_differently :
  _Parser (compile _UnicodeCompiler
             (And (Or (Is (Operand op_n) (Value 1)) (Is (Operand op_n) (Value 2)))
                  (Is (Operand op_v) (Value 0)))) =
  Ok (Some (Or (Is (Operand op_n) (Value 1))
               (And (Is (Operand op_n) (Value 2)) (Is (Operand op_v) (Value 0))))).
Proof. by vm_compute. Qed.

(** * Further properties of the code *)

(** ** More on [cldr_modulo] *)

(** X1: the result of [cldr_modulo] on ints: with a zero divisor it raises
    [ZeroDivisionError]; otherwise it is congruent to the dividend and has
    the sign of the divisor. *)
Theorem cldr_modulo_result (a b : Z) :
  match cldr_modulo a b with
  | Ok r => b <> 0 /\ (exists q, a = q * b + r) /\ (0 <= r < b \/ b < r <= 0)
  | Raise e => b = 0 /\ e = ZeroDivisionError
  end.
Proof.
  destruct (Z.eq_dec b 0) as [->|Hb].
  - by rewrite cldr_modulo_zero_divisor.
  - rewrite cldr_modulo_is_py_mod by done. split; [done|]. split.
    + exists (a / b). rewrite Z.mul_comm. by apply Z.div_mod.
    + destruct (Z.lt_trichotomy b 0) as [Hneg|[->|Hpos]]; [right| done |left].
      * by apply Z.mod_neg_bound.
      * by apply Z.mod_pos_bound.
Qed.

(** X2: [cldr_modulo] does not change when a multiple of the divisor is added
    to the dividend, and applying it to its own result changes nothing. *)
Theorem cldr_modulo_periodic_idempotent (a b k : Z) :
  cldr_modulo (a + k * b) b = cldr_modulo a b /\
  (cldr_modulo a b ≫= fun r => cldr_modulo r b) = cldr_modulo a b.
Proof.
  destruct (Z.eq_dec b 0) as [->|Hb].
  - by rewrite !cldr_modulo_zero_divisor.
  - rewrite !cldr_modulo_is_py_mod by done. split.
    + by rewrite Z.mod_add.
    + rewrite bind_Ok, cldr_modulo_is_py_mod by done. by rewrite Z.mod_mod.
Qed.

(** ** More on the range tests *)

Lemma in_range_loop_within (num : pynum) (rs : list range_item) :
  in_range_loop num rs = Ok true -> within_range_loop num rs = true.
Proof.
  induction rs as [|[k|lo hi] rs IH]; cbn [in_range_loop within_range_loop].
  - discriminate.
  - destruct (num_eq_int num k); [done | apply IH].
  - destruct (num_between num lo hi); [done | apply IH].
Qed.

(** X3: whatever the number, [in_range_list] returns [True] only where
    [within_range_list] does. *)
Theorem in_range_list_implies_within (num : pynum) (rs : list range_item) :
  in_range_list num rs = Ok true -> within_range_list num rs = Ok true.
Proof.
  unfold in_range_list, within_range_list. intros H.
  by rewrite (in_range_loop_within _ _ H).
Qed.

Lemma in_range_list_implies_within_witness :
  in_range_list (PDec (mkDecimal false 30 (-1))) [Pair 1 4] = Ok true /\
  within_range_list (PDec (mkDecimal false 30 (-1))) [Pair 1 4] = Ok true.
Proof.
  assert (in_range_list (PDec (mkDecimal false 30 (-1))) [Pair 1 4] = Ok true) as H
    by reflexivity.
  split; [exact H | exact (in_range_list_implies_within _ _ H)].
Defined.

Lemma in_range_loop_fractional (d : Decimal) (rs : list range_item) :
  ~ has_zero_fraction (PDec d) -> in_range_loop (PDec d) rs = Ok false.
Proof.
  intros Hfrac.
  assert (dec_eqb (to_integral_value d) d = false) as Hint.
  { destruct (dec_eqb (to_integral_value d) d) eqn:E; [|done].
    exfalso. apply Hfrac. by apply dec_integral_iff. }
  induction rs as [|[k|lo hi] rs IH]; cbn [in_range_loop]; [done| |].
  - destruct (num_eq_int (PDec d) k) eqn:E; [|done].
    exfalso. apply Hfrac. exists k. cbn in E.
    by destruct (dec_compare_int d k).
  - destruct (num_between (PDec d) lo hi); [|done].
    cbn [num_is_integral]. by rewrite bind_Ok, Hint.
Qed.

(** X4: a float or Decimal with a non-zero fractional part is in no range
    list: [in_range_list] returns [False] whatever the list holds. *)
Theorem in_range_list_fractional (d : Decimal) (rs : list range_item) :
  ~ has_zero_fraction (PDec d) ->
  in_range_list (PDec d) rs = Ok false /\ in_range_list (PFloat d) rs = Ok false.
Proof. intros H. split; by apply in_range_loop_fractional. Qed.

Lemma one_point_two_fractional : ~ has_zero_fraction (PDec (mkDecimal false 12 (-1))).
Proof. intros H. apply dec_integral_iff in H. discriminate H. Qed.

Lemma in_range_list_fractional_witness :
  in_range_list (PDec (mkDecimal false 12 (-1))) [Bare 1; Pair 1 4] = Ok false /\
  in_range_list (PFloat (mkDecimal false 12 (-1))) [Bare 1; Pair 1 4] = Ok false.
Proof.
  apply (in_range_list_fractional (mkDecimal false 12 (-1))).
  exact one_point_two_fractional.
Defined.

Lemma in_range_loop_integral (d : Decimal) (rs : list range_item) :
  has_zero_fraction (PDec d) ->
  in_range_loop (PDec d) rs = Ok (within_range_loop (PDec d) rs).
Proof.
  intros Hint. apply dec_integral_iff in Hint.
  induction rs as [|[k|lo hi] rs IH]; cbn [in_range_loop within_range_loop]; [done| |].
  - by destruct (num_eq_int (PDec d) k).
  - destruct (num_between (PDec d) lo hi); [|done].
    cbn [num_is_integral]. by rewrite bind_Ok, Hint.
Qed.

(** X5: on a float or Decimal without fractional part the two tests agree. *)
Theorem in_range_list_integral (d : Decimal) (rs : list range_item) :
  has_zero_fraction (PDec d) ->
  in_range_list (PDec d) rs = within_range_list (PDec d) rs /\
  in_range_list (PFloat d) rs = within_range_list (PFloat d) rs.
Proof. intros H. split; by apply in_range_loop_integral. Qed.

Lemma in_range_list_integral_witness :
  in_range_list (PDec (mkDecimal false 30 (-1))) [Pair 1 4] =
    within_range_list (PDec (mkDecimal false 30 (-1))) [Pair 1 4] /\
  in_range_list (PFloat (mkDecimal false 30 (-1))) [Pair 1 4] =
    within_range_list (PFloat (mkDecimal false 30 (-1))) [Pair 1 4].
Proof.
  apply (in_range_list_integral (mkDecimal false 30 (-1))).
  apply dec_integral_iff. reflexivity.
Defined.

(** X6: on an int the first entry that the number hits decides: a bare entry
    gives [True], a pair raises [AttributeError]; [False] is returned when
    no entry is hit. *)
Theorem in_range_list_int_first_hit (z : Z) (rs : list range_item) :
  in_range_list (PInt z) rs =
  match List.find (hits (PInt z)) rs with
  | Some (Bare _) => Ok true
  | Some (Pair _ _) =>
      Raise (AttributeError "'int' object has no attribute 'to_integral_value'")
  | None => Ok false
  end.
Proof.
  unfold in_range_list. cbn [coerce_float].
  induction rs as [|[k|lo hi] rs IH]; cbn [in_range_loop List.find hits]; [done| |].
  - by destruct (num_eq_int (PInt z) k).
  - by destruct (num_between (PInt z) lo hi).
Qed.

Lemma within_range_loop_Permutation (num : pynum) (rs1 rs2 : list range_item) :
  rs1 ≡ₚ rs2 -> within_range_loop num rs1 = within_range_loop num rs2.
Proof.
  intros Hperm.
  assert (forall rs rs', rs ≡ₚ rs' ->
            within_range_list_spec num rs -> within_range_list_spec num rs') as Hspec.
  { intros rs rs' Hp [(k & Hin & Hk)|(lo & hi & Hin & Hb)].
    - left. exists k. by rewrite <- Hp.
    - right. exists lo, hi. by rewrite <- Hp. }
  destruct (within_range_loop num rs1) eqn:E1, (within_range_loop num rs2) eqn:E2;
    try done.
  - apply within_range_loop_spec, (Hspec _ _ Hperm), within_range_loop_spec in E1.
    congruence.
  - apply within_range_loop_spec in E2.
    symmetry in Hperm. apply (Hspec _ _ Hperm), within_range_loop_spec in E2.
    congruence.
Qed.

(** X7: [within_range_list] does not depend on the order of the entries of
    the range list: two lists that are permutations of each other give
    the same answer for every number. *)
Theorem within_range_list_order (num : pynum) (rs1 rs2 : list range_item) :
  rs1 ≡ₚ rs2 -> within_range_list num rs1 = within_range_list num rs2.
Proof.
  intros Hperm. unfold within_range_list.
  by rewrite (within_range_loop_Permutation _ _ _ Hperm).
Qed.

Lemma within_range_list_order_witness :
  within_range_list (PInt 8) [Pair 7 15; Pair 1 4] =
  within_range_list (PInt 8) [Pair 1 4; Pair 7 15].
Proof.
  apply (within_range_list_order (PInt 8) [Pair 7 15; Pair 1 4] [Pair 1 4; Pair 7 15]).
  apply perm_swap.
Defined.

(** ** More on the constructor *)

(** X8: the constructor sees its argument through [sorted] alone: a mapping,
    a list of its items and any reordering of that list construct the
    same rule set, or fail with the same error. *)
Theorem PluralRule_init_order (rules1 rules2 : rules_input) :
  items rules1 ≡ₚ items rules2 -> PluralRule_init rules1 = PluralRule_init rules2.
Proof.
  intros Hperm. unfold PluralRule_init.
  rewrite (sorted_unique (items rules1) (sorted (items rules2))); [done| |].
  - by rewrite Hperm, sorted_Permutation.
  - apply sorted_Sorted.
Qed.

Lemma PluralRule_init_order_witness :
  PluralRule_init (FromPairs [("one", "n is 1"); ("few", "n in 2..4")]) =
  PluralRule_init (FromPairs [("few", "n in 2..4"); ("one", "n is 1")]).
Proof.
  apply (PluralRule_init_order
           (FromPairs [("one", "n is 1"); ("few", "n in 2..4")])
           (FromPairs [("few", "n in 2..4"); ("one", "n is 1")])).
  cbn [items]. apply perm_swap.
Defined.

(** X9: the constructor accepts its argument exactly when every tag is one of
    [_plural_tags], no tag is given twice and every expression parses. *)
Theorem PluralRule_init_accepts_iff (rules : rules_input) :
  (exists r, PluralRule_init rules = Ok r) <->
  Forall (fun key => key ∈ _plural_tags) (items rules).*1 /\
  NoDup (items rules).*1 /\
  Forall parses (items rules).*2.
Proof.
  split.
  - intros (r & Hinit).
    by apply PluralRule_init_Ok in Hinit as (_ & _ & Hall & Htags & Hnd).
  - intros (Htags & Hnd & Hall).
    pose proof (sorted_Permutation (items rules)) as Hperm.
    eexists. unfold PluralRule_init.
    rewrite init_loop_accepts; [by rewrite bind_Ok | | | |].
    + by rewrite Hperm.
    + by rewrite Hperm.
    + by rewrite Hperm.
    + intros k _. apply not_elem_of_empty.
Qed.

Lemma sorted_keys_increasing (pairs : list (string * string)) :
  StronglySorted pair_le pairs -> NoDup pairs.*1 ->
  StronglySorted (fun s t => String.compare s t = Lt) pairs.*1.
Proof.
  induction pairs as [|[key expr] rest IH]; intros Hs Hnd; [constructor|].
  apply StronglySorted_inv in Hs as [Hs Hall].
  cbn [fmap list_fmap fst] in *. apply NoDup_cons in Hnd as [Hkey Hnd].
  constructor; [by apply IH|].
  apply Forall_forall. intros k Hk.
  apply list_elem_of_fmap in Hk as ([k' e'] & -> & Hin).
  rewrite Forall_forall in Hall. specialize (Hall _ Hin).
  apply pair_le_iff in Hall as [Hlt|[Heq _]]; cbn [fst snd] in *; [done|].
  exfalso. apply Hkey. rewrite Heq.
  by apply (list_elem_of_fmap_2 fst rest (k', e')).
Qed.

Lemma stored_entries_sublist (pairs : list (string * string)) :
  (stored_entries pairs).*1 `sublist_of` pairs.*1.
Proof.
  induction pairs as [|[key expr] rest IH]; [constructor|].
  rewrite stored_entries_cons. cbn [fmap list_fmap fst].
  destruct (_Parser expr) as [[a|]|e]; cbn [app fmap list_fmap fst].
  - by apply sublist_skip.
  - by apply sublist_cons.
  - by apply sublist_cons.
Qed.

Lemma StronglySorted_sublist {A : Type} (R : relation A) (l k : list A) :
  l `sublist_of` k -> StronglySorted R k -> StronglySorted R l.
Proof.
  induction 1 as [|x l k Hsub IH|x l k Hsub IH]; intros Hs; [done| |].
  - apply StronglySorted_inv in Hs as [Hs Hall].
    constructor; [by apply IH|].
    apply Forall_forall. intros y Hy.
    rewrite Forall_forall in Hall. apply Hall.
    by apply (elem_of_sublist l k).
  - apply StronglySorted_inv in Hs as [Hs _]. by apply IH.
Qed.

(** X10: what the constructor establishes: the stored tags are strictly
    increasing in the order of [sorted] (so no tag is stored twice), all of
    them are plural tags, there are at most six entries, and the compiled
    function is unset. *)
Theorem PluralRule_init_invariant (rules : rules_input) (r : PluralRule) :
  PluralRule_init rules = Ok r ->
  StronglySorted (fun s t => String.compare s t = Lt) (abstract r).*1 /\
  NoDup (abstract r).*1 /\
  Forall (fun tag => tag ∈ _plural_tags) (abstract r).*1 /\
  (length (abstract r) <= 6)%nat /\
  _func r = None.
Proof.
  intros Hinit.
  apply PluralRule_init_Ok in Hinit as (Habs & Hfunc & _ & Htags & Hnd).
  pose proof (sorted_Permutation (items rules)) as Hperm.
  set (pairs := sorted (items rules)) in *.
  assert (NoDup pairs.*1) as Hnd' by by rewrite Hperm.
  assert (StronglySorted pair_le pairs) as Hsorted
    by (apply StronglySorted_merge_sort; apply _).
  destruct (stored_entries_keys pairs) as [Hkeys Hnodup].
  specialize (Hnodup Hnd'). rewrite <- Habs in Hkeys, Hnodup.
  assert (Forall (fun tag => tag ∈ _plural_tags) (abstract r).*1) as Hknown.
  { apply Forall_forall. intros k Hk. rewrite Forall_forall in Htags.
    apply Htags. rewrite <- Hperm. by apply Hkeys. }
  split_and!; try done.
  - rewrite Habs. apply (StronglySorted_sublist _ _ pairs.*1).
    + apply stored_entries_sublist.
    + by apply sorted_keys_increasing.
  - rewrite <- (length_fmap fst).
    change 6%nat with (length _plural_tags).
    apply submseteq_length, NoDup_submseteq; [done|].
    by apply Forall_forall.
Qed.

Lemma PluralRule_init_invariant_witness :
  StronglySorted (fun s t => String.compare s t = Lt)
    (abstract (mkPluralRule [("one", Is (Operand op_n) (Value 1))] None)).*1 /\
  NoDup (abstract (mkPluralRule [("one", Is (Operand op_n) (Value 1))] None)).*1 /\
  Forall (fun tag => tag ∈ _plural_tags)
    (abstract (mkPluralRule [("one", Is (Operand op_n) (Value 1))] None)).*1 /\
  (length (abstract (mkPluralRule [("one", Is (Operand op_n) (Value 1))] None)) <= 6)%nat /\
  _func (mkPluralRule [("one", Is (Operand op_n) (Value 1))] None) = None.
Proof.
  apply (PluralRule_init_invariant (FromPairs [("one", "n is 1")])).
  vm_compute. reflexivity.
Defined.

(** ** More on [rules] and [tags] *)

(** X11: in every state of the object, the keys of [rules] are the [tags]. *)
Theorem PluralRule_rules_dom (r : PluralRule) :
  dom (PluralRule_rules r) = PluralRule_tags r.
Proof.
  unfold PluralRule_rules, PluralRule_tags.
  rewrite dom_list_to_map_L, fmap_reverse.
  rewrite (list_to_set_perm_L _ _ (reverse_Permutation _)).
  by rewrite <- list_fmap_compose.
Qed.

(** X12: [rules] maps a tag to the text of the last entry stored for it, and
    has no key for a tag without entry; the state installed by
    [__setstate__] may hold several entries for one tag. *)
Theorem PluralRule_rules_last (r : PluralRule) (tag : string) :
  PluralRule_rules r !! tag =
  (fun p : string * ast => compile _UnicodeCompiler p.2)
    <$> last (filter (fun p : string * ast => p.1 = tag) (abstract r)).
Proof.
  unfold PluralRule_rules. induction (abstract r) as [|[k a] abs IH] using rev_ind.
  - done.
  - rewrite fmap_app, reverse_app. cbn [fmap list_fmap reverse rev_append app fst snd].
    change (reverse [(k, compile _UnicodeCompiler a)]) with [(k, compile _UnicodeCompiler a)].
    cbn [app]. rewrite list_to_map_cons, filter_app.
    destruct (decide (k = tag)) as [->|Hne].
    + rewrite lookup_insert_eq.
      rewrite filter_cons_True by done. rewrite filter_nil.
      by rewrite last_snoc.
    + rewrite lookup_insert_ne by done. rewrite IH.
      rewrite filter_cons_False by done. rewrite filter_nil.
      by rewrite app_nil_r.
Qed.

(** ** More on [to_python], [__call__] and [__setstate__] *)

Section Calls.

Variable python_relation : relation_handler.
Variable eval_condition : string -> operands -> result bool.

(** X13: whatever the argument, once [parse] has returned a rule set
    [to_python] succeeds exactly when that rule set stores nothing: the
    function it then defines returns ['other'], and with any stored rule
    the generated text is rejected by [exec] with a [SyntaxError]. *)
Theorem to_python_only_without_rules (x : rule_arg) (r : PluralRule) :
  PluralRule_parse x = Ok r ->
  match abstract r with
  | [] => to_python python_relation x = Ok [SUnpack; SReturn "other"]
  | _ :: _ => exists msg, to_python python_relation x = Raise (SyntaxError msg)
  end.
Proof.
  intros Hparse.
  assert (to_python python_relation x = to_python python_relation (IsRule r)) as ->.
  { unfold to_python. rewrite Hparse. done. }
  destruct (abstract r) as [|p rest] eqn:E.
  - by apply to_python_rule_empty.
  - eexists. apply to_python_rule_nonempty. by rewrite E.
Qed.

(** X14: the first call on an object whose function is unset: without stored
    rules it answers ['other'] and keeps the compiled function; with a
    stored rule it raises the [SyntaxError] of [to_python], whatever the
    number. *)
Theorem PluralRule_call_first (self : PluralRule) (n : pynum) :
  _func self = None ->
  match abstract self with
  | [] => PluralRule_call python_relation eval_condition self n =
          Ok (Some "other", mkPluralRule [] (Some [SUnpack; SReturn "other"]))
  | _ :: _ => exists msg, PluralRule_call python_relation eval_condition self n =
                          Raise (SyntaxError msg)
  end.
Proof.
  intros Hfunc. destruct (abstract self) as [|p rest] eqn:E.
  - unfold PluralRule_call. rewrite Hfunc, to_python_rule_empty by done.
    rewrite bind_Ok, E. reflexivity.
  - eexists. apply PluralRule_call_nonempty; [by rewrite E | done].
Qed.

(** X15: a call that returns leaves [abstract] as it was and the function
    set; every later call on the object runs that same function and
    leaves the object as it is. *)
Theorem PluralRule_call_caches (self self' : PluralRule) (n : pynum)
    (tag : option string) :
  PluralRule_call python_relation eval_condition self n = Ok (tag, self') ->
  abstract self' = abstract self /\
  exists func, _func self' = Some func /\
    forall m, PluralRule_call python_relation eval_condition self' m =
              (t ← call_plural eval_condition func m; Ok (t, self')).
Proof.
  unfold PluralRule_call at 1. intros Hcall.
  destruct (_func self) as [func|] eqn:Hfunc.
  - apply bind_Ok_inv in Hcall as (t & Ht & [= <- <-]).
    split; [done|]. exists func. split; [done|].
    intros m. unfold PluralRule_call. by rewrite Hfunc.
  - apply bind_Ok_inv in Hcall as (func & Hpy & Hcall).
    apply bind_Ok_inv in Hcall as (t & Ht & [= <- <-]).
    split; [done|]. exists func. split; [done|].
    intros m. reflexivity.
Qed.

(** X16: [__setstate__] does not reset the compiled function: after a call
    that returned, installing any other state changes no answer; every
    later call gives the tag, or the error, it gave before. *)
Theorem PluralRule_setstate_keeps_function (self self' : PluralRule) (n m : pynum)
    (tag : option string) (state : list (string * ast)) :
  PluralRule_call python_relation eval_condition self n = Ok (tag, self') ->
  PluralRule_call python_relation eval_condition (PluralRule_setstate self' state) m =
  (p ← PluralRule_call python_relation eval_condition self' m;
   Ok (p.1, PluralRule_setstate self' state)).
Proof.
  unfold PluralRule_call at 1. intros Hcall.
  assert (exists func, _func self' = Some func) as [func Hfunc].
  { destruct (_func self) as [func|] eqn:Hfunc.
    - apply bind_Ok_inv in Hcall as (t & Ht & [= <- <-]). eauto.
    - apply bind_Ok_inv in Hcall as (func & Hpy & Hcall).
      apply bind_Ok_inv in Hcall as (t & Ht & [= <- <-]). eauto. }
  unfold PluralRule_call, PluralRule_setstate. cbn [_func]. rewrite Hfunc.
  destruct (call_plural eval_condition func m) as [t|e]; reflexivity.
Qed.

End Calls.

Lemma to_python_only_without_rules_witness :
  match abstract (mkPluralRule [("one", Is (Operand op_n) (Value 1))] None) with
  | [] => to_python unicode_relation (IsRules (FromPairs [("one", "n is 1")])) =
          Ok [SUnpack; SReturn "other"]
  | _ :: _ => exists msg, to_python unicode_relation (IsRules (FromPairs [("one", "n is 1")])) =
                          Raise (SyntaxError msg)
  end.
Proof.
  apply (to_python_only_without_rules unicode_relation
           (IsRules (FromPairs [("one", "n is 1")]))).
  vm_compute. reflexivity.
Defined.

Lemma PluralRule_call_first_witness :
  match abstract (mkPluralRule [] None) with
  | [] => PluralRule_call unicode_relation (fun _ _ => Ok true) (mkPluralRule [] None) (PInt 1) =
          Ok (Some "other", mkPluralRule [] (Some [SUnpack; SReturn "other"]))
  | _ :: _ => exists msg,
      PluralRule_call unicode_relation (fun _ _ => Ok true) (mkPluralRule [] None) (PInt 1) =
      Raise (SyntaxError msg)
  end.
Proof.
  apply (PluralRule_call_first unicode_relation (fun _ _ => Ok true)
           (mkPluralRule [] None) (PInt 1)).
  reflexivity.
Defined.

Lemma PluralRule_call_caches_witness :
  abstract (mkPluralRule [] (Some [SUnpack; SReturn "other"])) =
    abstract (mkPluralRule [] None) /\
  exists func, _func (mkPluralRule [] (Some [SUnpack; SReturn "other"])) = Some func /\
    forall m, PluralRule_call unicode_relation (fun _ _ => Ok true)
                (mkPluralRule [] (Some [SUnpack; SReturn "other"])) m =
              (t ← call_plural (fun _ _ => Ok true) func m;
               Ok (t, mkPluralRule [] (Some [SUnpack; SReturn "other"]))).
Proof.
  apply (PluralRule_call_caches unicode_relation (fun _ _ => Ok true)
           (mkPluralRule [] None) _ (PInt 1) (Some "other")).
  reflexivity.
Defined.

Lemma PluralRule_setstate_keeps_function_witness :
  PluralRule_call unicode_relation (fun _ _ => Ok true)
    (PluralRule_setstate (mkPluralRule [] (Some [SUnpack; SReturn "other"]))
       [("one", Is (Operand op_n) (Value 1))]) (PInt 1) =
  (p ← PluralRule_call unicode_relation (fun _ _ => Ok true)
         (mkPluralRule [] (Some [SUnpack; SReturn "other"])) (PInt 1);
   Ok (p.1, PluralRule_setstate (mkPluralRule [] (Some [SUnpack; SReturn "other"]))
              [("one", Is (Operand op_n) (Value 1))])).
Proof.
  apply (PluralRule_setstate_keeps_function unicode_relation (fun _ _ => Ok true)
           (mkPluralRule [] None) _ (PInt 7) (PInt 1) (Some "other")).
  reflexivity.
Defined.

(** ** The code backends *)

(** X17: [_JavaScriptCompiler] overrides one handler of [_GettextCompiler],
    that of the operand [i]: on a tree that does not mention [i] the two
    compilers give the same text. *)
Theorem javascript_gettext_agree (relation : relation_handler) (a : ast) :
  mentions_i a = false ->
  compile (_JavaScriptCompiler relation) a = compile (_GettextCompiler relation) a.
Proof.
  induction a as [k|o|l IHl r IHr|l IHl r IHr|l IHl r IHr|negated m e IHe rl
                 |l IHl r IHr|l IHl r IHr|x IHx];
    cbn [mentions_i]; intros Hi;
    try (apply orb_false_elim in Hi as [Hl Hr]);
    cbn [compile].
  - reflexivity.
  - destruct o; try reflexivity. by apply bool_decide_eq_false in Hi.
  - rewrite IHl, IHr by done. reflexivity.
  - rewrite IHl, IHr by done. reflexivity.
  - rewrite IHl, IHr by done. reflexivity.
  - rewrite IHe by done. reflexivity.
  - rewrite IHl, IHr by done. reflexivity.
  - rewrite IHl, IHr by done. reflexivity.
  - rewrite IHx by done. reflexivity.
Qed.

Lemma javascript_gettext_agree_witness :
  compile (_JavaScriptCompiler unicode_relation) (Is (Mod (Operand op_n) (Value 10)) (Value 1)) =
  compile (_GettextCompiler unicode_relation) (Is (Mod (Operand op_n) (Value 10)) (Value 1)).
Proof.
  apply (javascript_gettext_agree unicode_relation
           (Is (Mod (Operand op_n) (Value 10)) (Value 1))).
  reflexivity.
Defined.

(** ** The pickled state *)

(** X18: the state saved by [__getstate__], installed by [__setstate__] in an
    object whose function is unset, gives back a constructed rule set. *)
Theorem PluralRule_state_round_trip (rules : rules_input) (r fresh : PluralRule) :
  PluralRule_init rules = Ok r ->
  _func fresh = None ->
  PluralRule_setstate fresh (PluralRule_getstate r) = r.
Proof.
  intros Hinit Hfresh.
  apply PluralRule_init_Ok in Hinit as (_ & Hfunc & _).
  unfold PluralRule_setstate, PluralRule_getstate.
  destruct r as [abs func]. cbn in *. by rewrite Hfresh, Hfunc.
Qed.

Lemma PluralRule_state_round_trip_witness :
  PluralRule_setstate (mkPluralRule [] None)
    (PluralRule_getstate (mkPluralRule [("one", Is (Operand op_n) (Value 1))] None)) =
  mkPluralRule [("one", Is (Operand op_n) (Value 1))] None.
Proof.
  apply (PluralRule_state_round_trip (FromPairs [("one", "n is 1")])).
  - vm_compute. reflexivity.
  - reflexivity.
Defined.

(** ** [to_gettext] and [tags] *)

Section GettextTags.

Variable gettext_relation : relation_handler.

(** X19: for a constructed rule set, the [nplurals] that [to_gettext] announces
    is one more than the number of [tags], and the last index of the
    expression, the fallback, is the number of tags. *)
Theorem to_gettext_nplurals (rules : rules_input) (r : PluralRule) :
  PluralRule_init rules = Ok r ->
  to_gettext gettext_relation (IsRule r) =
    Ok ("nplurals=" +:+ str_nat (size (PluralRule_tags r) + 1) +:+ "; plural=(" +:+
        join "" (gettext_parts gettext_relation r) +:+ ");") /\
  last (gettext_parts gettext_relation r) = Some (str_nat (size (PluralRule_tags r))).
Proof.
  intros Hinit.
  assert (NoDup (abstract r).*1) as Hnd.
  { apply PluralRule_init_Ok in Hinit as (Habs & _ & _ & _ & Hnd).
    rewrite Habs. apply stored_entries_keys.
    by rewrite (sorted_Permutation (items rules)). }
  assert (size (PluralRule_tags r) = length (abstract r)) as ->.
  { unfold PluralRule_tags. rewrite size_list_to_set by done. by rewrite length_fmap. }
  split.
  - unfold to_gettext. cbn [PluralRule_parse]. by rewrite bind_Ok.
  - unfold gettext_parts. by rewrite last_snoc.
Qed.

End GettextTags.

Lemma to_gettext_nplurals_witness :
  to_gettext unicode_relation (IsRule (mkPluralRule [("one", Is (Operand op_n) (Value 1))] None)) =
    Ok ("nplurals=" +:+
        str_nat (size (PluralRule_tags (mkPluralRule [("one", Is (Operand op_n) (Value 1))] None)) + 1)
        +:+ "; plural=(" +:+
        join "" (gettext_parts unicode_relation
                   (mkPluralRule [("one", Is (Operand op_n) (Value 1))] None)) +:+ ");") /\
  last (gettext_parts unicode_relation
          (mkPluralRule [("one", Is (Operand op_n) (Value 1))] None)) =
    Some (str_nat (size (PluralRule_tags (mkPluralRule [("one", Is (Operand op_n) (Value 1))] None)))).
Proof.
  apply (to_gettext_nplurals unicode_relation (FromPairs [("one", "n is 1")])).
  vm_compute. reflexivity.
Defined.
